(** * A single species, single season neural occupancy model

    Shallow embedding of [notebooks/simple-occupancy.ipynb] over the real
    numbers.  Tensors of shape (B,1) and (B,) are lists of reals, tensors of
    shape (B,C) are lists of rows.  A computation that leaves the finite
    reals (a logarithm taken at a non-positive argument, the mean of an empty
    tensor, a column read past the end of a row) yields [None].  [None] is
    carried on by every later operation; the library carries an infinite
    value on and may still end at a finite one (the log-sum-exp absorbs the
    logarithm of zero at psi = 1), so a result of [Some v] stands for the
    code's value [v], while [None] is concluded below only where the
    code's own value is not finite.  Rounding to single precision is not
    part of the embedding. *)

From Stdlib Require Import Reals Lra Lia List Arith ZArith Bool.
From Stdlib Require Import Binomial.
From Stdlib Require Import Sorted Permutation.
Import ListNotations.

Local Open Scope R_scope.

(** ** The error monad of the numerical code *)

Definition bind {A B : Type} (m : option A) (f : A -> option B) : option B :=
  match m with
  | Some a => f a
  | None => None
  end.

Notation "x <- m ;; f" := (bind m (fun x => f))
  (at level 61, m at next level, right associativity).

Fixpoint traverse {A B : Type} (f : A -> option B) (l : list A) : option (list B) :=
  match l with
  | [] => Some []
  | a :: l' => b <- f a ;; bs <- traverse f l' ;; Some (b :: bs)
  end.

(** ** Tensor primitives *)

Module Torch.

Abbreviation column := (list R) (only parsing).         (* shape (B,1) *)
Abbreviation vector := (list R) (only parsing).         (* shape (B,)  *)
Abbreviation matrix := (list (list R)) (only parsing).  (* shape (B,C) *)

(** [torch.finfo(torch.float32).eps] *)
Definition eps : R := / 2 ^ 23.

(** [torch.log]: finite only at a positive argument (the library returns
    an infinite value at 0 and not-a-number below). *)
Definition log (x : R) : option R :=
  if Rlt_dec 0 x then Some (ln x) else None.

(** [torch.log1p] *)
Definition log1p (x : R) : option R := log (1 + x).

(** [Tensor.clamp(min=lo, max=hi)] *)
Definition clamp (lo hi x : R) : R := Rmin (Rmax x lo) hi.

(** [torch.sigmoid] *)
Definition sigmoid (x : R) : R := / (1 + exp (- x)).

(** [F.elu] with its default [alpha = 1]. *)
Definition elu (x : R) : R := if Rlt_dec 0 x then x else exp x - 1.

(** [torch.lgamma(m + 1)] at a count [m]: the logarithm of [m!]. *)
Definition lgamma_succ (m : nat) : R := ln (INR (fact m)).

Definition sum (l : list R) : R := fold_right Rplus 0 l.

(** [torch.mean] over every element of a tensor; the mean of an empty
    tensor is not a number. *)
Definition mean (m : matrix) : option R :=
  match concat m with
  | [] => None
  | e :: es => Some (sum (e :: es) / INR (length (e :: es)))
  end.

(** [torch.cat((a, b), dim=1)] of two (B,1) columns: a (B,2) matrix. *)
Definition cat_dim1 (a b : column) : matrix :=
  map (fun ab => [fst ab; snd ab]) (combine a b).

(** [torch.logsumexp(m, dim=1)]: per row, the maximum is subtracted
    before exponentiating and added back after the logarithm. *)
Definition row_logsumexp (row : list R) : option R :=
  match row with
  | [] => None
  | r :: rs =>
      let m := fold_left Rmax rs r in
      l <- log (sum (map (fun v => exp (v - m)) (r :: rs))) ;;
      Some (m + l)
  end.

Definition logsumexp_dim1 (m : matrix) : option vector :=
  traverse row_logsumexp m.

(** Broadcasting.  (B,1) * (B,1) and (B,1) + (B,1) are elementwise. *)
Definition col_mul_col (a b : column) : column :=
  map (fun ab => fst ab * snd ab) (combine a b).

(** (B,1) * (N,): the vector is read as a (1,N) row; the result is (B,N). *)
Definition col_mul_vec (a : column) (v : vector) : matrix :=
  map (fun ai => map (fun vj => ai * vj) v) a.

(** (B,1) + (B,N): the column is repeated along each row. *)
Definition col_add_mat (a : column) (m : matrix) : matrix :=
  map (fun ar => map (fun e => fst ar + e) (snd ar)) (combine a m).

End Torch.

(** ** [torch.distributions.binomial.Binomial] *)

Module BinomialDist.

(** [torch.distributions.utils.clamp_probs] *)
Definition clamp_probs (probs : R) : R :=
  Torch.clamp Torch.eps (1 - Torch.eps) probs.

(** [torch.distributions.utils.probs_to_logits(probs, is_binary=True)] *)
Definition probs_to_logits (probs : R) : option R :=
  let ps_clamped := clamp_probs probs in
  a <- Torch.log ps_clamped ;;
  b <- Torch.log1p (- ps_clamped) ;;
  Some (a - b).

(** [torch.distributions.utils._clamp_by_zero] *)
Definition clamp_by_zero (x : R) : R := (Rmax x 0 + x - Rmin x 0) / 2.

(** [Binomial(total_count, probs).log_prob(value)] for one element, on
    the logits the distribution derives from [probs].  A count above
    [total_count] is outside the support. *)
Definition log_prob (total_count : nat) (probs : R) (value : nat) : option R :=
  if (value <=? total_count)%nat then
    logits <- probs_to_logits probs ;;
    let log_factorial_n := Torch.lgamma_succ total_count in
    let log_factorial_k := Torch.lgamma_succ value in
    let log_factorial_nmk := Torch.lgamma_succ (total_count - value) in
    l1p <- Torch.log1p (exp (- Rabs logits)) ;;
    let normalize_term :=
      INR total_count * clamp_by_zero logits
      + INR total_count * l1p - log_factorial_n in
    Some (INR value * logits - log_factorial_k - log_factorial_nmk
          - normalize_term)
  else None.

(** The probability mass function of the binomial distribution. *)
Definition pmf (total_count : nat) (probs : R) (value : nat) : R :=
  C total_count value * probs ^ value * (1 - probs) ^ (total_count - value).

End BinomialDist.

(** ** The marginal likelihood of a minibatch (the body of the training loop) *)

Module Likelihood.

Definition zip3 (psi_i p_i : Torch.column) (y_i : list nat) : list (R * R * nat) :=
  combine (combine psi_i p_i) y_i.

(** [.to(dtype=torch.float32)] of a boolean tensor element. *)
Definition to_float (b : bool) : R := if b then 1 else 0.

(** [(y_i > 0).to(dtype=torch.float32)] *)
Definition definitely_present (y_i : list nat) : Torch.column :=
  map (fun y => to_float (0 <? y)%nat) y_i.

(** [(y_i == 0).to(dtype=torch.float32)] *)
Definition maybe_absent (y_i : list nat) : Torch.column :=
  map (fun y => to_float (y =? 0)%nat) y_i.

(** One element of [torch.log(psi_i) + y_dist_if_present.log_prob(y_i)]. *)
Definition site_lp_present (k : nat) (psi p : R) (y : nat) : option R :=
  a <- Torch.log psi ;;
  b <- BinomialDist.log_prob k p y ;;
  Some (a + b).

Definition lp_present (k : nat) (psi_i p_i : Torch.column) (y_i : list nat)
  : option Torch.column :=
  traverse (fun s => site_lp_present k (fst (fst s)) (snd (fst s)) (snd s))
           (zip3 psi_i p_i y_i).

(** [torch.log(1 - psi_i)] *)
Definition log_1m_psi (psi_i : Torch.column) : option Torch.column :=
  traverse (fun psi => Torch.log (1 - psi)) psi_i.

(** [torch.logsumexp(torch.cat((lp_present, torch.log(1 - psi_i)), dim=1), dim=1)] *)
Definition lp_maybe_absent (k : nat) (psi_i p_i : Torch.column) (y_i : list nat)
  : option Torch.vector :=
  lp <- lp_present k psi_i p_i y_i ;;
  la <- log_1m_psi psi_i ;;
  Torch.logsumexp_dim1 (Torch.cat_dim1 lp la).

(** [definitely_present * lp_present + maybe_absent * lp_maybe_absent]:
    a (B,1) product plus the product of a (B,1) column and a (B,) vector. *)
Definition log_prob (k : nat) (psi_i p_i : Torch.column) (y_i : list nat)
  : option Torch.matrix :=
  lp <- lp_present k psi_i p_i y_i ;;
  lma <- lp_maybe_absent k psi_i p_i y_i ;;
  Some (Torch.col_add_mat
          (Torch.col_mul_col (definitely_present y_i) lp)
          (Torch.col_mul_vec (maybe_absent y_i) lma)).

(** [loss = -torch.mean(log_prob)] *)
Definition loss (k : nat) (psi_i p_i : Torch.column) (y_i : list nat) : option R :=
  lpm <- log_prob k psi_i p_i y_i ;;
  m <- Torch.mean lpm ;;
  Some (- m).

(** The log-likelihood the evaluator assigns to one site: the single
    entry of [log_prob] on the minibatch holding that site alone. *)
Definition site_log_prob (k : nat) (psi p : R) (y : nat) : option R :=
  lpm <- log_prob k [psi] [p] [y] ;;
  match lpm with
  | [[v]] => Some v
  | _ => None
  end.

(** The element of [lp_maybe_absent] belonging to one site. *)
Definition site_lp_maybe_absent (k : nat) (psi p : R) (y : nat) : option R :=
  lp <- site_lp_present k psi p y ;;
  la <- Torch.log (1 - psi) ;;
  Torch.row_logsumexp [lp; la].

(** A minibatch seen site by site: the model outputs and the observed
    count of every site, and the three tensors the training step holds. *)
Record Site := { site_psi : R; site_p : R; site_y : nat }.

Definition psi_col (b : list Site) : Torch.column := map site_psi b.
Definition p_col (b : list Site) : Torch.column := map site_p b.
Definition y_col (b : list Site) : list nat := map site_y b.

Definition batch_loss (k : nat) (b : list Site) : option R :=
  loss k (psi_col b) (p_col b) (y_col b).

(** The evaluator's log-likelihood of every site of a minibatch, each
    site taken on its own. *)
Definition site_log_probs (k : nat) (b : list Site) : option (list R) :=
  traverse (fun s => site_log_prob k (site_psi s) (site_p s) (site_y s)) b.

(** Sites on which every logarithm of the evaluator is finite. *)
Definition valid (k : nat) (s : Site) : Prop :=
  0 < site_psi s < 1 /\ (site_y s <= k)%nat.

End Likelihood.

(** ** The likelihood as the specification words it *)

Module Spec.

(** logBinomialPMF(y; k, p) *)
Definition logBinomialPMF (k : nat) (p : R) (y : nat) : R :=
  ln (BinomialDist.pmf k p y).

(** The direct, non-log-space value for a site never detected:
    log( psi (1-p)^k + (1-psi) ). *)
Definition naive_zero (k : nat) (psi p : R) : R :=
  ln (psi * (1 - p) ^ k + (1 - psi)).

(** The per-site log-likelihood: the certain-presence branch for y > 0,
    the marginalized branch for y = 0. *)
Definition site_log_likelihood (k : nat) (psi p : R) (y : nat) : R :=
  if (y =? 0)%nat then naive_zero k psi p
  else ln psi + logBinomialPMF k p y.


(** Negative arithmetic mean of per-site log-likelihoods. *)
Definition negative_mean (ll : list R) : R :=
  - (Torch.sum ll / INR (length ll)).

End Spec.

(** ** Closed forms of the tensors of one training step *)

Module Closed.
Import Likelihood.

(** The element of [lp_present] of site [s]. *)
Definition LP (k : nat) (s : Site) : R :=
  ln (site_psi s)
  + Spec.logBinomialPMF k (BinomialDist.clamp_probs (site_p s)) (site_y s).

(** The element of [lp_maybe_absent] of site [s]. *)
Definition LMA (k : nat) (s : Site) : R :=
  ln (site_psi s * BinomialDist.pmf k (BinomialDist.clamp_probs (site_p s)) (site_y s)
      + (1 - site_psi s)).

(** Entry (i,j) of the broadcast sum [log_prob]: the present term of
    site i with the marginalized term of site j. *)
Definition entry (k : nat) (s t : Site) : R :=
  to_float (0 <? site_y s)%nat * LP k s + to_float (site_y s =? 0)%nat * LMA k t.

End Closed.

(** ** The probability model *)

Module Net.

(** [nn.Linear]: [weight] has one row per output feature. *)
Record Linear := { weight : list (list R); bias : list R }.

Definition dot (w v : list R) : R :=
  Torch.sum (map (fun wv => fst wv * snd wv) (combine w v)).

(** One input row through a linear layer: [v W^T + b]. *)
Definition linear (L : Linear) (v : list R) : list R :=
  map (fun wb => dot (fst wb) v + snd wb) (combine (weight L) (bias L)).

Definition has_shape (L : Linear) (in_features out_features : nat) : Prop :=
  length (weight L) = out_features /\
  length (bias L) = out_features /\
  Forall (fun row => length row = in_features) (weight L).

Record Net := { fc1 : Linear; fc2 : Linear }.

(** The shapes [__init__] creates: [nn.Linear(1, 64)] and [nn.Linear(64, 2)]. *)
Definition init_shape (net : Net) : Prop :=
  has_shape (fc1 net) 1 64 /\ has_shape (fc2 net) 64 2.

(** [x = F.elu(self.fc1(x))] on a (B,1) batch of covariates. *)
Definition hidden (net : Net) (x : Torch.column) : Torch.matrix :=
  map (fun xi => map Torch.elu (linear (fc1 net) [xi])) x.

(** [output = torch.sigmoid(self.fc2(x))] *)
Definition output (net : Net) (x : Torch.column) : Torch.matrix :=
  map (fun h => map Torch.sigmoid (linear (fc2 net) h)) (hidden net x).

(** [output[:, [j]]] *)
Definition select_column (j : nat) (m : Torch.matrix) : option Torch.column :=
  traverse (fun row => nth_error row j) m.

Definition forward (net : Net) (x : Torch.column)
  : option (Torch.column * Torch.column) :=
  let out := output net x in
  psi <- select_column 0 out ;;
  p <- select_column 1 out ;;
  Some (psi, p).

End Net.

(** ** The random source *)

Module Rng.

(** The state of the global generator, as the draws it will hand out
    next: raw words for the uniform draws and standard normal variates.
    How the library's generator interleaves the two is not modelled. *)
Record Generator := { bits : nat -> Z; gauss : nat -> R }.

Definition M (A : Type) : Type := Generator -> A * Generator.

Definition ret {A : Type} (a : A) : M A := fun g => (a, g).

Definition bind {A B : Type} (m : M A) (f : A -> M B) : M B :=
  fun g => let (a, g') := m g in f a g'.

Notation "x <~ m ;; f" := (bind m (fun x => f))
  (at level 61, m at next level, right associativity).

(** One draw of [torch.rand] in single precision: the low 24 bits of a
    raw word, scaled into [0,1). *)
Definition rand : M R :=
  fun g => (IZR (bits g 0 mod 2 ^ 24) / IZR (2 ^ 24),
            {| bits := fun i => bits g (S i); gauss := gauss g |}).

(** One draw of a standard normal variate. *)
Definition randn : M R :=
  fun g => (gauss g 0,
            {| bits := bits g; gauss := fun i => gauss g (S i) |}).

Fixpoint replicate {A : Type} (n : nat) (m : M A) : M (list A) :=
  match n with
  | O => ret []
  | S n' => a <~ m ;; l <~ replicate n' m ;; ret (a :: l)
  end.

Fixpoint mapM {A B : Type} (f : A -> M B) (l : list A) : M (list B) :=
  match l with
  | [] => ret []
  | a :: l' => b <~ f a ;; bs <~ mapM f l' ;; ret (b :: bs)
  end.

End Rng.

(** ** The data generator *)

Module DataGenerator.
Import Rng.

(** [Uniform(low, high).sample()]: [low + rand * (high - low)]. *)
Definition Uniform_sample (low high : Torch.column) : M Torch.column :=
  mapM (fun lh => u <~ rand ;; ret (fst lh + u * (snd lh - fst lh)))
       (combine low high).

(** [Normal(loc=0, scale=1).sample()] *)
Definition Normal_sample (loc scale : R) : M R :=
  e <~ randn ;; ret (loc + scale * e).

(** [Bernoulli(probs).sample()]: one uniform draw per element. *)
Definition Bernoulli_sample (probs : Torch.column) : M Torch.column :=
  mapM (fun q => u <~ rand ;; ret (if Rlt_dec u q then 1 else 0)) probs.

Definition successes (q : R) (us : list R) : nat :=
  length (filter (fun u => if Rlt_dec u q then true else false) us).

(** [Binomial(total_count, probs).sample()]: per element, the number of
    successes among [total_count] independent trials of probability
    [probs].  The library's sampling algorithm is abstracted to this, the
    definition of the distribution. *)
Definition Binomial_sample (total_count : nat) (probs : Torch.column)
  : M (list nat) :=
  mapM (fun q => us <~ replicate total_count rand ;; ret (successes q us)) probs.

Fixpoint insert (a : R) (l : list R) : list R :=
  match l with
  | [] => [a]
  | b :: l' => if Rle_dec a b then a :: b :: l' else b :: insert a l'
  end.

(** [torch.sort], ascending. *)
Definition sort (l : list R) : list R := fold_right insert [] l.

Record Data := {
  x : Torch.column;
  p : Torch.column;
  psi : Torch.column;
  z : Torch.column;
  y : list nat
}.

(** [sigmoid(a0 + a1 * x + a2 * x**2)] *)
Definition curve (a0 a1 a2 : R) (xs : Torch.column) : Torch.column :=
  map (fun xi => Torch.sigmoid (a0 + a1 * xi + a2 * xi ^ 2)) xs.

(** The two data-generating cells, for [n] sites and [k] surveys. *)
Definition generate (n k : nat) : M Data :=
  x0 <~ Uniform_sample (repeat (- 1) n) (repeat 1 n) ;;
  let xs := sort x0 in
  a0 <~ Normal_sample 0 1 ;;
  a1 <~ Normal_sample 0 1 ;;
  a2 <~ Normal_sample 0 1 ;;
  let ps := curve a0 a1 a2 xs in
  b0 <~ Normal_sample 0 1 ;;
  b1 <~ Normal_sample 0 1 ;;
  b2 <~ Normal_sample 0 1 ;;
  let psis := curve b0 b1 b2 xs in
  zs <~ Bernoulli_sample psis ;;
  ys <~ Binomial_sample k (Torch.col_mul_col ps zs) ;;
  ret {| x := xs; p := ps; psi := psis; z := zs; y := ys |}.

(** The sites of a data set: latent state and observed count, paired. *)
Definition sites (d : Data) : list (R * nat) := combine (z d) (y d).

End DataGenerator.

(** ** The training loop *)

Module Training.
Import Rng.

Record Config := {
  n : nat;
  k : nat;
  batch_size : nat;
  n_epoch : Z
}.

Definition batch := list (R * nat).

(** The minibatches of one pass over [l]: consecutive runs of [bs]
    examples, the last one possibly shorter.  [fuel] bounds the number of
    minibatches. *)
Fixpoint chunks (fuel bs : nat) (l : batch) : list batch :=
  match fuel with
  | O => []
  | S fuel' =>
      match l with
      | [] => []
      | _ :: _ => firstn bs l :: chunks fuel' bs (skipn bs l)
      end
  end.

Section Loop.

(** [loss.backward(); optimizer.step()]: the parameter update. *)
Variable optimizer_step : Net.Net -> Torch.column -> list nat -> Net.Net.

(** The order in which a shuffling [DataLoader] visits the examples. *)
Variable shuffle : batch -> M batch.

(** [DataLoader(dataset, batch_size=..., shuffle=True)].  The constructor
    builds a random sampler, which refuses an empty data set, and a batch
    sampler, which refuses a batch size of zero. *)
Definition DataLoader (dataset : batch) (bs : nat) : option (M (list batch)) :=
  match dataset with
  | [] => None
  | _ :: _ =>
      if (bs =? 0)%nat then None
      else Some (l <~ shuffle dataset ;; ret (chunks (length l) bs l))
  end.

(** The loss of one minibatch under the current parameters. *)
Definition step_loss (k : nat) (net : Net.Net) (xy : batch) : option R :=
  let x_i := map fst xy in
  let y_i := map snd xy in
  out <- Net.forward net x_i ;;
  Likelihood.loss k (fst out) (snd out) y_i.

(** The inner [for] loop: one step per minibatch, the loss appended
    to [running_loss]. *)
Fixpoint train_batches (k : nat) (net : Net.Net) (running_loss : list (option R))
         (batches : list batch) : Net.Net * list (option R) :=
  match batches with
  | [] => (net, running_loss)
  | xy :: rest =>
      let l := step_loss k net xy in
      let net' := optimizer_step net (map fst xy) (map snd xy) in
      train_batches k net' (running_loss ++ [l]) rest
  end.

(** The outer [for] loop over [epochs] passes. *)
Fixpoint train_epochs (epochs : nat) (k : nat) (loader : M (list batch))
         (net : Net.Net) (running_loss : list (option R))
  : M (Net.Net * list (option R)) :=
  match epochs with
  | O => ret (net, running_loss)
  | S epochs' =>
      batches <~ loader ;;
      let (net', running_loss') := train_batches k net running_loss batches in
      train_epochs epochs' k loader net' running_loss'
  end.

Record Run := {
  data : DataGenerator.Data;
  fitted : Net.Net;
  running_loss : list (option R)
}.

(** The notebook from top to bottom: generate the data, build the
    loader, train for [range(n_epoch)] passes.  [None] is the loader's
    refusal of an empty data set or of a zero batch size. *)
Definition notebook (cfg : Config) (net0 : Net.Net) : M (option Run) :=
  d <~ DataGenerator.generate (n cfg) (k cfg) ;;
  let dataset := combine (DataGenerator.x d) (DataGenerator.y d) in
  match DataLoader dataset (batch_size cfg) with
  | None => ret None
  | Some loader =>
      r <~ train_epochs (Z.to_nat (n_epoch cfg)) (k cfg) loader net0 [] ;;
      ret (Some {| data := d;
                   fitted := fst r;
                   running_loss := snd r |})
  end.

End Loop.

End Training.

(** ** The notebook on arbitrary integer settings *)

Module Program.
Import Rng.

(** The values a user may assign to [n], [k], [params['batch_size']] and
    [n_epoch]: any Python integers. *)
Record Settings := {
  n : Z;
  k : Z;
  batch_size : Z;
  n_epoch : Z
}.

(** The exceptions that library calls of the notebook raise; the notebook
    has no check of its own. *)
Inductive Raised :=
| negative_dimension    (* [torch.ones(n)] with n < 0 *)
| invalid_total_count   (* [Binomial(total_count=k, ...)] with k < 0 *)
| loader_refused.       (* [DataLoader(dataset, **params)] *)

(** The data-generating cells up to the draw of [z]: what has run when
    the binomial distribution is constructed. *)
Definition draw_latent (n : nat)
  : M (list R * list R * list R * list R) :=
  x0 <~ DataGenerator.Uniform_sample (repeat (- 1) n) (repeat 1 n) ;;
  let xs := DataGenerator.sort x0 in
  a0 <~ DataGenerator.Normal_sample 0 1 ;;
  a1 <~ DataGenerator.Normal_sample 0 1 ;;
  a2 <~ DataGenerator.Normal_sample 0 1 ;;
  let ps := DataGenerator.curve a0 a1 a2 xs in
  b0 <~ DataGenerator.Normal_sample 0 1 ;;
  b1 <~ DataGenerator.Normal_sample 0 1 ;;
  b2 <~ DataGenerator.Normal_sample 0 1 ;;
  let psis := DataGenerator.curve b0 b1 b2 xs in
  zs <~ DataGenerator.Bernoulli_sample psis ;;
  ret (xs, ps, psis, zs).

Section Loop.

Variable optimizer_step : Net.Net -> list R -> list nat -> Net.Net.
Variable shuffle : Training.batch -> M Training.batch.

(** The cells from top to bottom.  [torch.ones(n)] refuses a negative
    size before anything is drawn; the binomial distribution refuses a
    negative [total_count] once [x], the coefficients and [z] are drawn;
    everything else is [Training.notebook]. *)
Definition run (cfg : Settings) (net0 : Net.Net) : M (Raised + Training.Run) :=
  if (n cfg <? 0)%Z then ret (inl negative_dimension)
  else if (k cfg <? 0)%Z then
    latent <~ draw_latent (Z.to_nat (n cfg)) ;;
    ret (inl invalid_total_count)
  else
    r <~ Training.notebook optimizer_step shuffle
           {| Training.n := Z.to_nat (n cfg);
              Training.k := Z.to_nat (k cfg);
              Training.batch_size := Z.to_nat (batch_size cfg);
              Training.n_epoch := n_epoch cfg |} net0 ;;
    ret (match r with
         | None => inl loader_refused
         | Some finished => inr finished
         end).

End Loop.

End Program.

(** ** The quantities the plotting cells derive from the data *)

Module Reporting.

(** [1 * y.numpy() > 0]: whether the species was detected at a site. *)
Definition detected (ys : list nat) : list R :=
  map (fun y => Likelihood.to_float (0 <? y)%nat) ys.

(** [y.numpy() / k]: the fraction of the surveys with a detection. *)
Definition detection_frequency (k : nat) (ys : list nat) : list R :=
  map (fun y => INR y / INR k) ys.

End Reporting.

(** * Properties *)

(** ** The error monad *)

Lemma traverse_total {A B : Type} (f : A -> option B) (g : A -> B) (l : list A) :
  Forall (fun a => f a = Some (g a)) l -> traverse f l = Some (map g l).
Proof.
  induction 1 as [|a l Ha _ IH]; simpl; [reflexivity|].
  rewrite Ha; simpl; rewrite IH; reflexivity.
Qed.

Lemma traverse_map {A B C : Type} (f : B -> option C) (h : A -> B) (l : list A) :
  traverse f (map h l) = traverse (fun a => f (h a)) l.
Proof.
  induction l as [|a l IH]; simpl; [reflexivity|].
  rewrite IH; reflexivity.
Qed.

(** ** Real-number facts about the primitives *)

Module TorchFacts.
Import Torch.

Lemma eps_bounds : 0 < eps < / 2.
Proof. unfold eps; lra. Qed.

Lemma log_pos (v : R) : 0 < v -> log v = Some (ln v).
Proof. intros H; unfold log; destruct (Rlt_dec 0 v); [reflexivity|contradiction]. Qed.

Lemma log_nonpos (v : R) : v <= 0 -> log v = None.
Proof. intros H; unfold log; destruct (Rlt_dec 0 v); [lra|reflexivity]. Qed.

Lemma clamp_range (lo hi v : R) : lo <= hi -> lo <= clamp lo hi v <= hi.
Proof.
  intros H; unfold clamp, Rmin, Rmax.
  destruct (Rle_dec v lo); destruct (Rle_dec _ hi); lra.
Qed.

Lemma clamp_inside (lo hi v : R) : lo <= v <= hi -> clamp lo hi v = v.
Proof.
  intros H; unfold clamp, Rmin, Rmax.
  destruct (Rle_dec v lo); destruct (Rle_dec _ hi); lra.
Qed.

Lemma clamp_below (lo hi v : R) : lo <= hi -> v <= lo -> clamp lo hi v = lo.
Proof.
  intros H1 H2; unfold clamp, Rmin, Rmax.
  destruct (Rle_dec v lo); destruct (Rle_dec _ hi); lra.
Qed.

Lemma sigmoid_range (v : R) : 0 < sigmoid v < 1.
Proof.
  unfold sigmoid.
  pose proof (exp_pos (- v)) as He.
  split.
  - apply Rinv_0_lt_compat; lra.
  - rewrite <- Rinv_1 at 2.
    apply Rinv_lt_contravar; lra.
Qed.

Lemma sum_app (a b : list R) : sum (a ++ b) = sum a + sum b.
Proof. induction a as [|v a IH]; simpl; [lra|rewrite IH; lra]. Qed.

(** The maximum-subtraction form of log-sum-exp is the logarithm of the
    sum of the exponentials. *)
Lemma row_logsumexp_pair (a b : R) :
  row_logsumexp [a; b] = Some (ln (exp a + exp b)).
Proof.
  unfold row_logsumexp; simpl fold_left; simpl map; simpl sum.
  set (m := Rmax a b).
  pose proof (exp_pos (a - m)) as Ha.
  pose proof (exp_pos (b - m)) as Hb.
  rewrite log_pos by lra; simpl.
  f_equal.
  rewrite <- (ln_exp m) at 1.
  rewrite <- ln_mult by (try apply exp_pos; lra).
  f_equal.
  rewrite Rplus_0_r, Rmult_plus_distr_l, <- !exp_plus.
  f_equal; f_equal; lra.
Qed.

End TorchFacts.

(** ** The binomial log-probability *)

Module BinomialFacts.
Import Torch TorchFacts BinomialDist.

Lemma clamp_probs_range (p : R) : eps <= clamp_probs p <= 1 - eps.
Proof. apply clamp_range; pose proof eps_bounds; lra. Qed.

Lemma clamp_probs_inside (p : R) : eps <= p <= 1 - eps -> clamp_probs p = p.
Proof. apply clamp_inside. Qed.

Lemma clamp_probs_open (p : R) : 0 < clamp_probs p < 1.
Proof. pose proof (clamp_probs_range p); pose proof eps_bounds; lra. Qed.

Lemma probs_to_logits_value (p : R) :
  probs_to_logits p = Some (ln (clamp_probs p) - ln (1 - clamp_probs p)).
Proof.
  unfold probs_to_logits, log1p.
  pose proof (clamp_probs_open p) as H.
  rewrite !log_pos by lra; simpl.
  do 2 f_equal; f_equal; lra.
Qed.

Lemma exp_logit (q : R) : 0 < q < 1 -> exp (ln q - ln (1 - q)) = q / (1 - q).
Proof.
  intros H; unfold Rminus at 1.
  rewrite exp_plus, exp_Ropp, !exp_ln by lra; reflexivity.
Qed.

(** [max(l,0) + log1p(exp(-|l|))] is the softplus [ln (1 + exp l)]; at a
    logit it is [- ln (1 - q)]. *)
Lemma normalizer_logit (q : R) :
  0 < q < 1 ->
  clamp_by_zero (ln q - ln (1 - q))
  + ln (1 + exp (- Rabs (ln q - ln (1 - q)))) = - ln (1 - q).
Proof.
  intros H.
  set (l := ln q - ln (1 - q)).
  assert (Hsp : clamp_by_zero l + ln (1 + exp (- Rabs l)) = ln (1 + exp l)).
  { unfold clamp_by_zero.
    destruct (Rle_lt_dec 0 l) as [Hl|Hl].
    - rewrite Rmax_left, Rmin_right, Rabs_right by lra.
      replace ((l + l - 0) / 2) with (ln (exp l)) by (rewrite ln_exp; lra).
      pose proof (exp_pos l); pose proof (exp_pos (- l)).
      rewrite <- ln_mult by lra.
      f_equal.
      rewrite Rmult_plus_distr_l, <- exp_plus.
      replace (l + - l) with 0 by lra; rewrite exp_0; lra.
    - rewrite Rmax_right, Rmin_left, Rabs_left by lra.
      replace (- - l) with l by lra.
      lra. }
  rewrite Hsp; unfold l; rewrite exp_logit by assumption.
  replace (1 + q / (1 - q)) with (/ (1 - q)) by (field; lra).
  apply ln_Rinv; lra.
Qed.

Lemma fact_pos (m : nat) : 0 < INR (fact m).
Proof. apply lt_0_INR, Nat.neq_0_lt_0, fact_neq_0. Qed.

Lemma C_pos (k y : nat) : 0 < C k y.
Proof.
  unfold C; apply Rdiv_lt_0_compat; [apply fact_pos|].
  apply Rmult_lt_0_compat; apply fact_pos.
Qed.

Lemma ln_C (k y : nat) :
  ln (C k y) = lgamma_succ k - lgamma_succ y - lgamma_succ (k - y).
Proof.
  unfold C, lgamma_succ, Rdiv.
  pose proof (fact_pos k); pose proof (fact_pos y); pose proof (fact_pos (k - y)).
  rewrite ln_mult, ln_Rinv, ln_mult; try lra.
  - apply Rmult_lt_0_compat; assumption.
  - apply Rinv_0_lt_compat, Rmult_lt_0_compat; assumption.
Qed.

Lemma pmf_pos (k y : nat) (q : R) : 0 < q < 1 -> 0 < pmf k q y.
Proof.
  intros H; unfold pmf.
  apply Rmult_lt_0_compat; [apply Rmult_lt_0_compat|].
  - apply C_pos.
  - apply pow_lt; lra.
  - apply pow_lt; lra.
Qed.

Lemma ln_pmf (k y : nat) (q : R) :
  0 < q < 1 -> (y <= k)%nat ->
  ln (pmf k q y)
  = lgamma_succ k - lgamma_succ y - lgamma_succ (k - y)
    + INR y * ln q + (INR k - INR y) * ln (1 - q).
Proof.
  intros H Hy; unfold pmf.
  assert (0 < q ^ y) by (apply pow_lt; lra).
  assert (0 < (1 - q) ^ (k - y)) by (apply pow_lt; lra).
  pose proof (C_pos k y).
  rewrite !ln_mult; try assumption; [|apply Rmult_lt_0_compat; assumption].
  rewrite ln_C, !ln_pow, minus_INR by (assumption || lra).
  reflexivity.
Qed.

(** The library's log-probability is the logarithm of the binomial mass
    function at the clamped probability. *)
Lemma binomial_log_prob_value (k y : nat) (p : R) :
  (y <= k)%nat -> log_prob k p y = Some (ln (pmf k (clamp_probs p) y)).
Proof.
  intros Hy; unfold log_prob.
  apply Nat.leb_le in Hy as Hb; rewrite Hb.
  rewrite probs_to_logits_value; simpl.
  pose proof (clamp_probs_open p) as Hq.
  set (q := clamp_probs p) in *.
  unfold log1p.
  pose proof (exp_pos (- Rabs (ln q - ln (1 - q)))).
  rewrite log_pos by lra; simpl.
  f_equal.
  rewrite ln_pmf by assumption.
  pose proof (normalizer_logit q Hq) as Hn.
  set (cz := clamp_by_zero (ln q - ln (1 - q))) in *.
  set (sp := ln (1 + exp (- Rabs (ln q - ln (1 - q))))) in *.
  replace sp with (- ln (1 - q) - cz) by lra.
  ring.
Qed.

Lemma pmf_zero (k : nat) (q : R) : pmf k q 0 = (1 - q) ^ k.
Proof.
  unfold pmf, C; rewrite Nat.sub_0_r; simpl.
  pose proof (fact_pos k); field; lra.
Qed.

(** The binomial masses add up to one (the binomial theorem). *)
Lemma pmf_total (k : nat) (q : R) : sum_f_R0 (pmf k q) k = 1.
Proof.
  unfold pmf.
  rewrite <- binomial.
  replace (q + (1 - q)) with 1 by lra.
  apply pow1.
Qed.

End BinomialFacts.

(** ** The likelihood evaluator, site by site *)

Module LikelihoodFacts.
Import Torch TorchFacts BinomialDist BinomialFacts Likelihood Closed.

Lemma site_lp_present_value (k y : nat) (psi p : R) :
  0 < psi -> (y <= k)%nat ->
  site_lp_present k psi p y
  = Some (ln psi + Spec.logBinomialPMF k (clamp_probs p) y).
Proof.
  intros Hpsi Hy; unfold site_lp_present.
  rewrite log_pos, binomial_log_prob_value by assumption; reflexivity.
Qed.

Lemma site_lp_maybe_absent_value (k y : nat) (psi p : R) :
  0 < psi < 1 -> (y <= k)%nat ->
  site_lp_maybe_absent k psi p y
  = Some (ln (psi * pmf k (clamp_probs p) y + (1 - psi))).
Proof.
  intros Hpsi Hy; unfold site_lp_maybe_absent.
  rewrite site_lp_present_value by (assumption || lra); cbn [bind].
  rewrite log_pos by lra; cbn [bind].
  rewrite row_logsumexp_pair.
  pose proof (pmf_pos k y (clamp_probs p) (clamp_probs_open p)).
  unfold Spec.logBinomialPMF.
  rewrite exp_plus, !exp_ln by lra.
  reflexivity.
Qed.

Lemma zip3_cols (b : list Site) :
  zip3 (psi_col b) (p_col b) (y_col b)
  = map (fun s => (site_psi s, site_p s, site_y s)) b.
Proof.
  unfold zip3, psi_col, p_col, y_col.
  induction b as [|s b IH]; simpl; [reflexivity|].
  rewrite IH; reflexivity.
Qed.

Lemma lp_present_value (k : nat) (b : list Site) :
  Forall (valid k) b ->
  lp_present k (psi_col b) (p_col b) (y_col b) = Some (map (LP k) b).
Proof.
  intros Hb; unfold lp_present.
  rewrite zip3_cols, traverse_map; simpl.
  apply traverse_total.
  eapply Forall_impl; [|exact Hb].
  intros s [Hpsi Hy]; apply site_lp_present_value; [lra|assumption].
Qed.

Lemma log_1m_psi_value (k : nat) (b : list Site) :
  Forall (valid k) b ->
  log_1m_psi (psi_col b) = Some (map (fun s => ln (1 - site_psi s)) b).
Proof.
  intros Hb; unfold log_1m_psi, psi_col.
  rewrite traverse_map.
  apply traverse_total.
  eapply Forall_impl; [|exact Hb].
  intros s [Hpsi Hy]; apply log_pos; lra.
Qed.

Lemma cat_dim1_maps {A : Type} (f g : A -> R) (l : list A) :
  cat_dim1 (map f l) (map g l) = map (fun a => [f a; g a]) l.
Proof.
  unfold cat_dim1.
  induction l as [|a l IH]; simpl; [reflexivity|].
  rewrite IH; reflexivity.
Qed.

Lemma lp_maybe_absent_value (k : nat) (b : list Site) :
  Forall (valid k) b ->
  lp_maybe_absent k (psi_col b) (p_col b) (y_col b) = Some (map (LMA k) b).
Proof.
  intros Hb; unfold lp_maybe_absent.
  rewrite lp_present_value by assumption; simpl.
  rewrite (log_1m_psi_value k) by assumption; simpl.
  rewrite cat_dim1_maps.
  unfold logsumexp_dim1; rewrite traverse_map.
  apply traverse_total.
  eapply Forall_impl; [|exact Hb].
  intros s [Hpsi Hy]; cbv beta.
  rewrite row_logsumexp_pair.
  pose proof (pmf_pos k (site_y s) _ (clamp_probs_open (site_p s))).
  unfold LP, LMA, Spec.logBinomialPMF.
  rewrite exp_plus, !exp_ln by lra.
  reflexivity.
Qed.

Lemma broadcast_rows (b1 : list Site) (v : list R) (lp : Site -> R) :
  col_add_mat
    (col_mul_col (definitely_present (y_col b1)) (map lp b1))
    (col_mul_vec (maybe_absent (y_col b1)) v)
  = map (fun s => map (fun e => to_float (0 <? site_y s)%nat * lp s
                                + to_float (site_y s =? 0)%nat * e) v) b1.
Proof.
  unfold col_add_mat, col_mul_col, col_mul_vec, definitely_present,
    maybe_absent, y_col.
  induction b1 as [|s b1 IH]; simpl; [reflexivity|].
  rewrite IH; f_equal.
  rewrite map_map; reflexivity.
Qed.

Lemma batch_log_prob_value (k : nat) (b : list Site) :
  Forall (valid k) b ->
  log_prob k (psi_col b) (p_col b) (y_col b)
  = Some (map (fun s => map (entry k s) b) b).
Proof.
  intros Hb; unfold log_prob.
  rewrite lp_present_value, lp_maybe_absent_value by assumption; simpl.
  rewrite broadcast_rows.
  f_equal; apply map_ext; intros s.
  rewrite map_map; reflexivity.
Qed.

End LikelihoodFacts.

(** ** The loss of a minibatch *)

Module LossFacts.
Import Torch TorchFacts BinomialDist BinomialFacts Likelihood Closed LikelihoodFacts.

Lemma rows_length {A : Type} (f : A -> R -> R) (v : list R) (b1 : list A) :
  length (concat (map (fun s => map (f s) v) b1)) = (length b1 * length v)%nat.
Proof.
  induction b1 as [|s b1 IH]; simpl; [reflexivity|].
  rewrite length_app, length_map, IH; reflexivity.
Qed.

Lemma sum_affine (c d : R) (v : list R) :
  sum (map (fun e => c + d * e) v) = INR (length v) * c + d * sum v.
Proof.
  induction v as [|e v IH]; [simpl; lra|].
  simpl length; rewrite S_INR; simpl; rewrite IH; lra.
Qed.

Lemma sum_rows {A : Type} (a m : A -> R) (v : list R) (b1 : list A) :
  sum (concat (map (fun s => map (fun e => a s + m s * e) v) b1))
  = INR (length v) * sum (map a b1) + sum (map m b1) * sum v.
Proof.
  induction b1 as [|s b1 IH]; simpl; [lra|].
  rewrite sum_app, IH, sum_affine; lra.
Qed.

Lemma mean_value (m : matrix) :
  concat m <> [] ->
  mean m = Some (sum (concat m) / INR (length (concat m))).
Proof.
  intros H; unfold mean.
  destruct (concat m); [contradiction|reflexivity].
Qed.

Lemma log_prob_rows (k : nat) (b : list Site) :
  map (fun s => map (entry k s) b) b
  = map (fun s => map (fun e => to_float (0 <? site_y s)%nat * LP k s
                                + to_float (site_y s =? 0)%nat * e)
                      (map (LMA k) b)) b.
Proof. apply map_ext; intros s; rewrite map_map; reflexivity. Qed.

(** What the training step computes on any minibatch: the mean of all
    B*B entries of the broadcast sum. *)
Lemma batch_loss_value (k : nat) (b : list Site) :
  b <> [] -> Forall (valid k) b ->
  batch_loss k b
  = Some (- ((INR (length b)
              * sum (map (fun s => to_float (0 <? site_y s)%nat * LP k s) b)
              + sum (map (fun s => to_float (site_y s =? 0)%nat) b)
                * sum (map (LMA k) b))
             / (INR (length b) * INR (length b)))).
Proof.
  intros Hne Hb; unfold batch_loss, loss.
  rewrite batch_log_prob_value by assumption; cbn [bind].
  rewrite log_prob_rows.
  rewrite mean_value.
  - cbn [bind].
    rewrite rows_length, sum_rows, length_map, mult_INR.
    reflexivity.
  - intros Hc; apply (f_equal (@length R)) in Hc.
    rewrite rows_length, length_map in Hc; simpl in Hc.
    destruct b; [contradiction|simpl in Hc; lia].
Qed.

Lemma site_log_prob_value (k : nat) (s : Site) :
  valid k s ->
  site_log_prob k (site_psi s) (site_p s) (site_y s)
  = Some (if (site_y s =? 0)%nat then LMA k s else LP k s).
Proof.
  intros Hs; unfold site_log_prob.
  change [site_psi s] with (psi_col [s]).
  change [site_p s] with (p_col [s]).
  change [site_y s] with (y_col [s]).
  rewrite batch_log_prob_value by (constructor; [assumption|constructor]).
  cbn [bind map]; f_equal; unfold entry.
  destruct (site_y s) as [|y']; simpl; lra.
Qed.

Lemma site_log_probs_value (k : nat) (b : list Site) :
  Forall (valid k) b ->
  site_log_probs k b
  = Some (map (fun s => if (site_y s =? 0)%nat then LMA k s else LP k s) b).
Proof.
  intros Hb; unfold site_log_probs.
  apply traverse_total.
  eapply Forall_impl; [|exact Hb].
  intros s Hs; apply site_log_prob_value; assumption.
Qed.

Lemma site_log_prob_spec (k y : nat) (psi p : R) :
  0 < psi < 1 -> (y <= k)%nat ->
  site_log_prob k psi p y
  = Some (Spec.site_log_likelihood k psi (clamp_probs p) y).
Proof.
  intros Hpsi Hy.
  assert (Hs : valid k {| site_psi := psi; site_p := p; site_y := y |})
    by (split; assumption).
  pose proof (site_log_prob_value k _ Hs) as Hv; simpl in Hv.
  rewrite Hv.
  unfold Spec.site_log_likelihood, LMA, LP; simpl.
  destruct y as [|y']; simpl; [|reflexivity].
  rewrite pmf_zero; reflexivity.
Qed.

Lemma site_log_prob_nonpositive_psi (k y : nat) (psi p : R) :
  psi <= 0 ->
  site_lp_present k psi p y = None /\ site_log_prob k psi p y = None.
Proof.
  intros H0.
  assert (H : site_lp_present k psi p y = None)
    by (unfold site_lp_present; rewrite log_nonpos by assumption; reflexivity).
  split; [exact H|].
  unfold site_log_prob, Likelihood.log_prob, lp_present, zip3; simpl.
  rewrite H; reflexivity.
Qed.


Lemma length_pos_INR {A : Type} (l : list A) : l <> [] -> 0 < INR (length l).
Proof.
  intros H; destruct l; [contradiction|].
  apply lt_0_INR; simpl; lia.
Qed.

End LossFacts.

(** ** The training step on homogeneous and on mixed minibatches *)

Section BatchLoss.
Import Torch TorchFacts BinomialDist BinomialFacts Likelihood Closed
       LikelihoodFacts LossFacts.

Lemma all_present_columns (k : nat) (b : list Site) :
  Forall (fun s => (0 < site_y s)%nat) b ->
  map (fun s => to_float (0 <? site_y s)%nat * LP k s) b = map (LP k) b /\
  sum (map (fun s => to_float (site_y s =? 0)%nat) b) = 0 /\
  map (fun s => if (site_y s =? 0)%nat then LMA k s else LP k s) b = map (LP k) b.
Proof.
  intros H; induction H as [|s b Hs _ [IH1 [IH2 IH3]]]; simpl.
  - repeat split; reflexivity.
  - rewrite IH1, IH2, IH3.
    destruct (site_y s) as [|y']; [lia|]; simpl.
    repeat split; try (f_equal; lra); lra.
Qed.

Lemma all_absent_columns (k : nat) (b : list Site) :
  Forall (fun s => site_y s = 0%nat) b ->
  sum (map (fun s => to_float (0 <? site_y s)%nat * LP k s) b) = 0 /\
  sum (map (fun s => to_float (site_y s =? 0)%nat) b) = INR (length b) /\
  map (fun s => if (site_y s =? 0)%nat then LMA k s else LP k s) b = map (LMA k) b.
Proof.
  intros H; induction H as [|s b Hs _ [IH1 [IH2 IH3]]].
  - simpl; repeat split; reflexivity.
  - simpl length; rewrite S_INR; simpl.
    rewrite IH1, IH2, IH3, Hs; simpl.
    repeat split; lra.
Qed.

Lemma site_log_likelihood_closed (k : nat) (b : list Site) :
  map (fun s => if (site_y s =? 0)%nat then LMA k s else LP k s) b
  = map (fun s => Spec.site_log_likelihood k (site_psi s)
                    (clamp_probs (site_p s)) (site_y s)) b.
Proof.
  apply map_ext; intros s.
  unfold Spec.site_log_likelihood, LMA, LP, Spec.naive_zero.
  destruct (site_y s) as [|y'] eqn:Ey; simpl; [|reflexivity].
  rewrite pmf_zero; reflexivity.
Qed.

Lemma clamp_free (k : nat) (b : list Site) :
  Forall (fun s => eps <= site_p s <= 1 - eps) b ->
  map (fun s => Spec.site_log_likelihood k (site_psi s)
                  (clamp_probs (site_p s)) (site_y s)) b
  = map (fun s => Spec.site_log_likelihood k (site_psi s) (site_p s) (site_y s)) b.
Proof.
  induction 1 as [|s b Hs _ IH]; simpl; [reflexivity|].
  rewrite IH, clamp_probs_inside by exact Hs; reflexivity.
Qed.

(** C10: on a minibatch whose sites all have y > 0, or all have y = 0,
    the loss of the training step, with its masks and its broadcasting,
    is the negative mean over the sites of the per-site log-likelihood
    of that branch: log(psi) + logBinomialPMF(y;k,p) when every y > 0,
    log(psi (1-p)^k + (1-psi)) when every y = 0, with p as the binomial
    distribution clamps it to [eps, 1 - eps]. *)
Theorem homogeneous_batch_loss (k : nat) (b : list Site) :
  b <> [] ->
  Forall (valid k) b ->
  Forall (fun s => (0 < site_y s)%nat) b \/ Forall (fun s => site_y s = 0%nat) b ->
  exists ll,
    site_log_probs k b = Some ll /\
    batch_loss k b = Some (Spec.negative_mean ll) /\
    ll = map (fun s => Spec.site_log_likelihood k (site_psi s)
                         (clamp_probs (site_p s)) (site_y s)) b /\
    (Forall (fun s => eps <= site_p s <= 1 - eps) b ->
     ll = map (fun s => Spec.site_log_likelihood k (site_psi s) (site_p s)
                          (site_y s)) b) /\
    (Forall (fun s => (0 < site_y s)%nat) b ->
     traverse (fun s => site_lp_present k (site_psi s) (site_p s) (site_y s)) b
     = Some ll /\
     ll = map (fun s => ln (site_psi s)
                        + Spec.logBinomialPMF k (clamp_probs (site_p s)) (site_y s)) b) /\
    (Forall (fun s => site_y s = 0%nat) b ->
     traverse (fun s => site_lp_maybe_absent k (site_psi s) (site_p s) (site_y s)) b
     = Some ll /\
     ll = map (fun s => Spec.naive_zero k (site_psi s) (clamp_probs (site_p s))) b).
Proof.
  intros Hne Hb Hhom.
  pose proof (length_pos_INR b Hne) as HB.
  assert (Hlp : traverse (fun s => site_lp_present k (site_psi s) (site_p s) (site_y s)) b
                = Some (map (LP k) b)).
  { apply traverse_total; eapply Forall_impl; [|exact Hb].
    intros s [Hpsi Hy]; apply site_lp_present_value; [lra|assumption]. }
  assert (Hlma : traverse (fun s => site_lp_maybe_absent k (site_psi s) (site_p s) (site_y s)) b
                 = Some (map (LMA k) b)).
  { apply traverse_total; eapply Forall_impl; [|exact Hb].
    intros s [Hpsi Hy]; apply site_lp_maybe_absent_value; assumption. }
  pose proof (site_log_likelihood_closed k b) as Hcl.
  rewrite site_log_probs_value, batch_loss_value by assumption.
  destruct Hhom as [Hpos|Hzero].
  - destruct (all_present_columns k b Hpos) as [E1 [E2 E3]].
    exists (map (LP k) b); rewrite E1, E2, E3.
    rewrite E3 in Hcl.
    split; [reflexivity|]; split; [|split; [|split; [|split]]].
    + unfold Spec.negative_mean; rewrite length_map.
      do 2 f_equal; field; lra.
    + exact Hcl.
    + intros Hin; rewrite Hcl; apply clamp_free; exact Hin.
    + intros _; split; [exact Hlp|reflexivity].
    + intros Hz; destruct b as [|s b]; [contradiction|].
      inversion Hpos; inversion Hz; subst; lia.
  - destruct (all_absent_columns k b Hzero) as [E1 [E2 E3]].
    exists (map (LMA k) b); rewrite E1, E2, E3.
    rewrite E3 in Hcl.
    split; [reflexivity|]; split; [|split; [|split; [|split]]].
    + unfold Spec.negative_mean; rewrite length_map.
      do 2 f_equal; field; lra.
    + exact Hcl.
    + intros Hin; rewrite Hcl; apply clamp_free; exact Hin.
    + intros Hp; destruct b as [|s b]; [contradiction|].
      inversion Hp; inversion Hzero; subst; lia.
    + intros _; split; [exact Hlma|].
      clear - Hzero; induction Hzero as [|s b Hs _ IH]; simpl; [reflexivity|].
      rewrite IH; f_equal.
      unfold LMA, Spec.naive_zero; rewrite Hs, pmf_zero; reflexivity.
Qed.

(** The theorem at two minibatches of two different sites each, one with
    every y > 0 and one with every y = 0. *)
Lemma homogeneous_batch_loss_witness :
  (exists ll,
     site_log_probs 3 [ {| site_psi := / 2; site_p := / 4; site_y := 1 |};
                        {| site_psi := / 4; site_p := / 2; site_y := 3 |} ]
     = Some ll /\
     batch_loss 3 [ {| site_psi := / 2; site_p := / 4; site_y := 1 |};
                    {| site_psi := / 4; site_p := / 2; site_y := 3 |} ]
     = Some (Spec.negative_mean ll) /\
     ll = [ ln (/ 2) + Spec.logBinomialPMF 3 (/ 4) 1;
            ln (/ 4) + Spec.logBinomialPMF 3 (/ 2) 3 ]) /\
  (exists ll,
     site_log_probs 3 [ {| site_psi := / 2; site_p := / 4; site_y := 0 |};
                        {| site_psi := / 4; site_p := / 2; site_y := 0 |} ]
     = Some ll /\
     batch_loss 3 [ {| site_psi := / 2; site_p := / 4; site_y := 0 |};
                    {| site_psi := / 4; site_p := / 2; site_y := 0 |} ]
     = Some (Spec.negative_mean ll) /\
     ll = [ Spec.naive_zero 3 (/ 2) (/ 4); Spec.naive_zero 3 (/ 4) (/ 2) ]).
Proof.
  assert (He : 0 < eps <= / 4) by (unfold eps; lra).
  split.
  - destruct (homogeneous_batch_loss 3
                [ {| site_psi := / 2; site_p := / 4; site_y := 1 |};
                  {| site_psi := / 4; site_p := / 2; site_y := 3 |} ])
      as [ll [H1 [H2 [_ [H3 _]]]]].
    + discriminate.
    + repeat constructor; simpl; try lra; lia.
    + left; repeat constructor; simpl; lia.
    + exists ll; split; [exact H1|]; split; [exact H2|].
      rewrite H3
        by (constructor; [simpl; lra|constructor; [simpl; lra|constructor]]).
      reflexivity.
  - destruct (homogeneous_batch_loss 3
                [ {| site_psi := / 2; site_p := / 4; site_y := 0 |};
                  {| site_psi := / 4; site_p := / 2; site_y := 0 |} ])
      as [ll [H1 [H2 [_ [H3 _]]]]].
    + discriminate.
    + repeat constructor; simpl; try lra; lia.
    + right; repeat constructor.
    + exists ll; split; [exact H1|]; split; [exact H2|].
      rewrite H3
        by (constructor; [simpl; lra|constructor; [simpl; lra|constructor]]).
      reflexivity.
Defined.

End BatchLoss.

Section MixedBatch.
Import Torch TorchFacts BinomialDist BinomialFacts Likelihood Closed
       LikelihoodFacts LossFacts.

Lemma clamp_probs_half : clamp_probs (/ 2) = / 2.
Proof. apply clamp_probs_inside; pose proof eps_bounds; lra. Qed.

Lemma pmf_2_half_1 : pmf 2 (/ 2) 1 = / 2.
Proof. unfold pmf, C; simpl; field. Qed.

Lemma pmf_2_half_0 : pmf 2 (/ 2) 0 = / 4.
Proof. unfold pmf, C; simpl; field. Qed.

(** C1: on a minibatch that mixes a detected and an undetected site the
    loss of the training step is not the negative mean of the per-site
    log-likelihoods: the (B,1) mask times the (B,) vector
    [lp_maybe_absent] broadcasts to (B,B), so the undetected site is
    averaged with the marginalized term of every site of the minibatch.
    Here k = 2, both sites have psi = p = 1/2, and y = 1, 0. *)
Theorem mixed_batch_loss_mixes_sites :
  let b := [ {| site_psi := / 2; site_p := / 2; site_y := 1 |};
             {| site_psi := / 2; site_p := / 2; site_y := 0 |} ] in
  exists ll v,
    site_log_probs 2 b = Some ll /\
    batch_loss 2 b = Some v /\
    ll = [ln (/ 2) + ln (/ 2); ln (5 / 8)] /\
    v = - ((2 * (ln (/ 2) + ln (/ 2)) + ln (3 / 4) + ln (5 / 8)) / 4) /\
    v <> Spec.negative_mean ll.
Proof.
  intros b.
  assert (Hb : Forall (valid 2) b).
  { repeat constructor; simpl; try lra; lia. }
  assert (L0 : LP 2 {| site_psi := / 2; site_p := / 2; site_y := 1 |}
               = ln (/ 2) + ln (/ 2)).
  { unfold LP, Spec.logBinomialPMF; simpl.
    rewrite clamp_probs_half, pmf_2_half_1; reflexivity. }
  assert (M0 : LMA 2 {| site_psi := / 2; site_p := / 2; site_y := 1 |}
               = ln (3 / 4)).
  { unfold LMA; simpl.
    rewrite clamp_probs_half, pmf_2_half_1; f_equal; lra. }
  assert (M1 : LMA 2 {| site_psi := / 2; site_p := / 2; site_y := 0 |}
               = ln (5 / 8)).
  { unfold LMA; simpl.
    rewrite clamp_probs_half, pmf_2_half_0; f_equal; lra. }
  assert (Hlt : ln (5 / 8) < ln (3 / 4)) by (apply ln_increasing; lra).
  eexists; eexists.
  split; [apply site_log_probs_value; exact Hb|].
  split; [apply batch_loss_value; [discriminate|exact Hb]|].
  unfold b; simpl map; simpl length; simpl sum.
  unfold to_float, Spec.negative_mean; simpl.
  rewrite L0, M0, M1.
  split; [reflexivity|].
  split; [lra|].
  simpl; lra.
Qed.

End MixedBatch.

(** ** The two branches of the per-site log-likelihood *)

Section Branches.
Import Torch TorchFacts BinomialDist BinomialFacts Likelihood Closed
       LikelihoodFacts LossFacts.

Lemma pmf_1_1 (q : R) : pmf 1 q 1 = q.
Proof. unfold pmf, C; simpl; field. Qed.

Lemma clamp_probs_half_eps : clamp_probs (eps / 2) = eps.
Proof.
  unfold clamp_probs; apply clamp_below; pose proof eps_bounds; lra.
Qed.

(** C2, as amended: for psi in (0,1), any p and 0 < y <= k, the site's
    log-likelihood is log(psi) + logBinomialPMF(y; k, p') where p' is p
    clamped to [eps, 1 - eps] by the binomial distribution; for p inside
    that interval it is log(psi) + logBinomialPMF(y; k, p). *)
Theorem present_branch (k y : nat) (psi p : R) :
  0 < psi < 1 -> (0 < y <= k)%nat ->
  site_lp_present k psi p y
  = Some (ln psi + Spec.logBinomialPMF k (clamp_probs p) y) /\
  site_log_prob k psi p y
  = Some (ln psi + Spec.logBinomialPMF k (clamp_probs p) y) /\
  (eps <= p <= 1 - eps ->
   site_log_prob k psi p y = Some (ln psi + Spec.logBinomialPMF k p y)).
Proof.
  intros Hpsi [Hy0 Hyk].
  assert (Hs : valid k {| site_psi := psi; site_p := p; site_y := y |})
    by (split; assumption).
  pose proof (site_log_prob_value k _ Hs) as Hv; simpl in Hv.
  destruct y as [|y']; [lia|]; simpl in Hv.
  split; [apply site_lp_present_value; [lra|assumption]|].
  split; [exact Hv|].
  intros Hp; rewrite Hv; unfold LP; simpl.
  rewrite clamp_probs_inside by assumption; reflexivity.
Qed.

Lemma present_branch_witness :
  site_log_prob 2 (/ 2) (/ 2) 1
  = Some (ln (/ 2) + Spec.logBinomialPMF 2 (/ 2) 1).
Proof.
  apply (present_branch 2 1 (/ 2) (/ 2)).
  - lra.
  - lia.
  - pose proof eps_bounds; lra.
Defined.

(** At p = eps/2, inside (0,1), the site's log-likelihood is computed
    at the clamped probability eps and differs from
    log(psi) + logBinomialPMF(y; k, p). *)
Lemma present_branch_below_eps :
  0 < / 2 < 1 /\ 0 < eps / 2 < 1 /\ (0 < 1 <= 1)%nat /\
  site_log_prob 1 (/ 2) (eps / 2) 1 = Some (ln (/ 2) + ln eps) /\
  site_log_prob 1 (/ 2) (eps / 2) 1
  <> Some (ln (/ 2) + Spec.logBinomialPMF 1 (eps / 2) 1).
Proof.
  pose proof eps_bounds as He.
  assert (Hv : site_log_prob 1 (/ 2) (eps / 2) 1 = Some (ln (/ 2) + ln eps)).
  { rewrite site_log_prob_spec by (lra || lia).
    unfold Spec.site_log_likelihood, Spec.logBinomialPMF; simpl.
    rewrite clamp_probs_half_eps, pmf_1_1; reflexivity. }
  repeat split; try lra; try lia; [exact Hv|].
  rewrite Hv; unfold Spec.logBinomialPMF; rewrite pmf_1_1.
  intros H; injection H as H1.
  apply Rplus_eq_reg_l, ln_inv in H1; lra.
Qed.



End Branches.

(** ** Total probability, and where the logarithms are defined *)

Section TotalProbability.
Import Torch TorchFacts BinomialDist BinomialFacts Likelihood Closed
       LikelihoodFacts LossFacts.










(** C5, as amended: only p is clamped before its logarithms are taken,
    into [eps, 1 - eps], inside the binomial distribution; psi and
    1 - psi go to the logarithm as they are.  So the evaluator is finite
    for every p in [0,1] whenever psi lies strictly inside (0,1); at
    psi <= 0 the logarithm of psi is not finite and neither is the site's
    log-likelihood; at psi >= 1 the logarithm of 1 - psi is not finite. *)
Theorem logarithm_domain (k y : nat) (psi p : R) :
  (y <= k)%nat ->
  eps <= clamp_probs p <= 1 - eps /\
  (exists l, probs_to_logits p = Some l) /\
  (0 < psi < 1 -> 0 <= p <= 1 -> exists v, site_log_prob k psi p y = Some v) /\
  (psi <= 0 ->
   Torch.log psi = None /\
   site_lp_present k psi p y = None /\
   site_log_prob k psi p y = None) /\
  (1 <= psi -> Torch.log (1 - psi) = None /\ log_1m_psi [psi] = None).
Proof.
  intros Hy.
  split; [apply clamp_probs_range|].
  split; [eexists; apply probs_to_logits_value|].
  split; [intros Hpsi _; eexists; apply site_log_prob_spec; assumption|].
  split.
  - intros H0; split; [apply log_nonpos; exact H0|].
    apply site_log_prob_nonpositive_psi; exact H0.
  - intros H1.
    assert (H : Torch.log (1 - psi) = None) by (apply log_nonpos; lra).
    split; [exact H|].
    unfold log_1m_psi; simpl; rewrite H; reflexivity.
Qed.

Lemma logarithm_domain_witness :
  exists v, site_log_prob 1 (/ 2) 0 1 = Some v.
Proof.
  destruct (logarithm_domain 1 1 (/ 2) 0) as [_ [_ [H _]]]; [lia|].
  apply H; lra.
Defined.

(** With psi saturated to exactly 0 the logarithm of zero is taken and
    the site's log-likelihood is not finite; with psi saturated to
    exactly 1, [torch.log(1 - psi_i)] is the logarithm of zero. *)
Lemma logarithm_of_saturated_psi :
  Torch.log 0 = None /\
  site_lp_present 1 0 (/ 2) 1 = None /\
  site_log_prob 1 0 (/ 2) 1 = None /\
  log_1m_psi [1] = None.
Proof.
  split; [apply log_nonpos; lra|].
  split; [apply site_log_prob_nonpositive_psi; lra|].
  split; [apply site_log_prob_nonpositive_psi; lra|].
  unfold log_1m_psi; simpl; rewrite log_nonpos by lra; reflexivity.
Qed.

End TotalProbability.

(** ** The probability model *)

Module NetFacts.
Import Torch TorchFacts Net.

Lemma linear_length (L : Linear) (v : list R) (i o : nat) :
  has_shape L i o -> length (linear L v) = o.
Proof.
  intros [Hw [Hb _]]; unfold linear.
  rewrite length_map, length_combine, Hw, Hb.
  apply Nat.min_id.
Qed.

Lemma select_column_value (j : nat) (m : matrix) :
  Forall (fun row => (j < length row)%nat) m ->
  select_column j m = Some (map (fun row => nth j row 0) m).
Proof.
  intros H; unfold select_column.
  apply traverse_total.
  eapply Forall_impl; [|exact H].
  intros row Hrow; apply nth_error_nth'; assumption.
Qed.

Lemma hidden_width (net : Net) (x : column) :
  init_shape net -> Forall (fun h => length h = 64%nat) (hidden net x).
Proof.
  intros [H1 _]; unfold hidden.
  apply Forall_forall; intros h Hh.
  apply in_map_iff in Hh as [xi [<- _]].
  rewrite length_map; apply (linear_length _ _ 1); assumption.
Qed.

Lemma output_width (net : Net) (x : column) :
  init_shape net -> Forall (fun o => length o = 2%nat) (output net x).
Proof.
  intros [_ H2]; unfold output.
  apply Forall_forall; intros o Ho.
  apply in_map_iff in Ho as [h [<- _]].
  rewrite length_map; apply (linear_length _ _ 64); assumption.
Qed.

Lemma output_range (net : Net) (x : column) :
  Forall (Forall (fun v => 0 < v < 1)) (output net x).
Proof.
  unfold output.
  apply Forall_forall; intros o Ho.
  apply in_map_iff in Ho as [h [<- _]].
  apply Forall_forall; intros v Hv.
  apply in_map_iff in Hv as [u [<- _]].
  apply sigmoid_range.
Qed.

Lemma column_range (j : nat) (m : matrix) :
  Forall (fun row => (j < length row)%nat) m ->
  Forall (Forall (fun v => 0 < v < 1)) m ->
  Forall (fun v => 0 < v < 1) (map (fun row => nth j row 0) m).
Proof.
  intros Hlen Hrange.
  induction m as [|row m IH]; simpl; constructor.
  - apply Forall_inv in Hlen; apply Forall_inv in Hrange.
    rewrite Forall_forall in Hrange.
    apply Hrange, nth_In; assumption.
  - apply Forall_inv_tail in Hlen; apply Forall_inv_tail in Hrange.
    apply IH; assumption.
Qed.

Lemma forward_value (net : Net) (x : list R) :
  init_shape net ->
  forward net x
  = Some (map (fun row => nth 0 row 0) (output net x),
          map (fun row => nth 1 row 0) (output net x)) /\
  Forall (fun v => 0 < v < 1) (map (fun row => nth 0 row 0) (output net x)) /\
  Forall (fun v => 0 < v < 1) (map (fun row => nth 1 row 0) (output net x)).
Proof.
  intros Hshape.
  pose proof (output_width net x Hshape) as Hw.
  assert (H0 : Forall (fun row => (0 < length row)%nat) (output net x))
    by (eapply Forall_impl; [|exact Hw]; simpl; intros; lia).
  assert (H1 : Forall (fun row => (1 < length row)%nat) (output net x))
    by (eapply Forall_impl; [|exact Hw]; simpl; intros; lia).
  unfold forward.
  rewrite !select_column_value by assumption; cbn [bind].
  split; [reflexivity|].
  split; apply column_range; try assumption; apply output_range.
Qed.

End NetFacts.

(** ** The random source *)

Module RngFacts.
Import Rng.

Lemma rand_range (g : Generator) : 0 <= fst (rand g) < 1.
Proof.
  unfold rand; cbn [fst].
  assert (Hm : (0 <= bits g 0 mod 2 ^ 24 < 2 ^ 24)%Z)
    by (apply Z.mod_pos_bound; reflexivity).
  destruct Hm as [Hlo Hhi].
  apply IZR_le in Hlo; apply IZR_lt in Hhi.
  assert (Hp : 0 < IZR (2 ^ 24)) by (apply IZR_lt; reflexivity).
  remember (IZR (bits g 0 mod 2 ^ 24)) as u eqn:Eu.
  remember (IZR (2 ^ 24)) as D eqn:ED.
  clear Eu ED.
  split.
  - apply Rmult_le_pos; [assumption|].
    apply Rlt_le, Rinv_0_lt_compat; assumption.
  - apply (Rmult_lt_reg_r D); [assumption|].
    unfold Rdiv; rewrite Rmult_assoc, Rinv_l by lra; lra.
Qed.

Lemma replicate_length {A : Type} (m : M A) (n : nat) (g : Generator) :
  length (fst (replicate n m g)) = n.
Proof.
  revert g; induction n as [|n IH]; intros g; [reflexivity|].
  simpl; unfold bind.
  destruct (m g) as [a g1].
  specialize (IH g1); destruct (replicate n m g1) as [l g2].
  simpl in *; f_equal; exact IH.
Qed.

Lemma replicate_Forall {A : Type} (m : M A) (P : A -> Prop) (n : nat) :
  (forall g, P (fst (m g))) ->
  forall g, Forall P (fst (replicate n m g)).
Proof.
  intros Hm; induction n as [|n IH]; intros g; [constructor|].
  simpl; unfold bind.
  pose proof (Hm g) as Ha.
  destruct (m g) as [a g1].
  specialize (IH g1); destruct (replicate n m g1) as [l g2].
  simpl in *; constructor; assumption.
Qed.

Lemma mapM_Forall2 {A B : Type} (f : A -> M B) (Q : A -> B -> Prop) (l : list A) :
  (forall a g, Q a (fst (f a g))) ->
  forall g, Forall2 Q l (fst (mapM f l g)).
Proof.
  intros Hf; induction l as [|a l IH]; intros g; [constructor|].
  simpl; unfold bind.
  pose proof (Hf a g) as Ha.
  destruct (f a g) as [b g1].
  specialize (IH g1); destruct (mapM f l g1) as [bs g2].
  simpl in *; constructor; assumption.
Qed.

Lemma mapM_Forall {A B : Type} (f : A -> M B) (P : B -> Prop) (l : list A) :
  (forall a g, P (fst (f a g))) ->
  forall g, Forall P (fst (mapM f l g)).
Proof.
  intros Hf; induction l as [|a l IH]; intros g; [constructor|].
  simpl; unfold bind.
  pose proof (Hf a g) as Ha.
  destruct (f a g) as [b g1].
  specialize (IH g1); destruct (mapM f l g1) as [bs g2].
  simpl in *; constructor; assumption.
Qed.

Lemma mapM_length {A B : Type} (f : A -> M B) (l : list A) (g : Generator) :
  length (fst (mapM f l g)) = length l.
Proof.
  symmetry; eapply Forall2_length.
  apply (mapM_Forall2 f (fun _ _ => True)); intros; exact I.
Qed.

End RngFacts.

(** ** The data generator *)

Module GeneratorFacts.
Import Torch Rng RngFacts DataGenerator.

Lemma insert_length (a : R) (l : list R) : length (insert a l) = S (length l).
Proof.
  induction l as [|b l IH]; simpl; [reflexivity|].
  destruct (Rle_dec a b); simpl; [reflexivity|rewrite IH; reflexivity].
Qed.

Lemma sort_length (l : list R) : length (sort l) = length l.
Proof.
  induction l as [|a l IH]; simpl; [reflexivity|].
  rewrite insert_length, IH; reflexivity.
Qed.

Lemma Uniform_sample_length (n : nat) (lo hi : R) (g : Generator) :
  length (fst (Uniform_sample (repeat lo n) (repeat hi n) g)) = n.
Proof.
  unfold Uniform_sample.
  rewrite mapM_length, length_combine, !repeat_length.
  apply Nat.min_id.
Qed.

Lemma curve_length (a0 a1 a2 : R) (xs : column) :
  length (curve a0 a1 a2 xs) = length xs.
Proof. apply length_map. Qed.

Lemma successes_le (q : R) (us : list R) : (successes q us <= length us)%nat.
Proof. apply filter_length_le. Qed.

Lemma successes_none (q : R) (us : list R) :
  q <= 0 -> Forall (fun u => 0 <= u < 1) us -> successes q us = 0%nat.
Proof.
  intros Hq Hus; unfold successes.
  induction Hus as [|u us Hu _ IH]; simpl; [reflexivity|].
  destruct (Rlt_dec u q); [lra|exact IH].
Qed.

(** Every binomial draw lies in 0..total_count, and is 0 when the
    success probability is 0. *)
Lemma Binomial_sample_support (k : nat) (probs : column) (g : Generator) :
  Forall2 (fun q y => (y <= k)%nat /\ (q <= 0 -> y = 0%nat))
          probs (fst (Binomial_sample k probs g)).
Proof.
  unfold Binomial_sample.
  apply mapM_Forall2; intros q g'.
  unfold bind, ret.
  pose proof (replicate_length rand k g') as Hlen.
  pose proof (replicate_Forall rand (fun u => 0 <= u < 1) k rand_range g') as Hrange.
  destruct (replicate k rand g') as [us g'']; simpl in *.
  split.
  - rewrite <- Hlen; apply successes_le.
  - intros Hq; apply successes_none; assumption.
Qed.

Lemma Bernoulli_sample_values (probs : column) (g : Generator) :
  Forall (fun z => z = 0 \/ z = 1) (fst (Bernoulli_sample probs g)).
Proof.
  unfold Bernoulli_sample.
  apply mapM_Forall; intros q g'; unfold bind, ret.
  destruct (rand g') as [u g'']; simpl.
  destruct (Rlt_dec u q); [right|left]; reflexivity.
Qed.

Lemma sites_support (k : nat) (ps zs : column) (ys : list nat) :
  length ps = length zs ->
  Forall2 (fun q y => (y <= k)%nat /\ (q <= 0 -> y = 0%nat))
          (col_mul_col ps zs) ys ->
  length ys = length zs /\
  Forall (fun zy => (0 <= snd zy <= k)%nat /\ (fst zy = 0 -> snd zy = 0%nat))
         (combine zs ys).
Proof.
  revert zs ys; induction ps as [|q ps IH]; intros zs ys Hlen H.
  - destruct zs; [|discriminate].
    inversion H; subst; split; [reflexivity|constructor].
  - destruct zs as [|z zs]; [discriminate|].
    unfold col_mul_col in H; simpl in H.
    inversion H as [|qz y' l l' [Hy Hz] Hrest]; subst.
    destruct (IH zs l') as [IH1 IH2]; [simpl in Hlen; lia|exact Hrest|].
    split; [simpl; rewrite IH1; reflexivity|].
    simpl; constructor; [|exact IH2].
    simpl; split; [lia|].
    intros ->; apply Hz; lra.
Qed.

(** The stages of [generate], read off its result. *)
Lemma generate_stages (n k : nat) (g : Generator) :
  let d := fst (generate n k g) in
  length (x d) = n /\ length (p d) = n /\ length (psi d) = n /\
  (exists g1, z d = fst (Bernoulli_sample (psi d) g1)) /\
  (exists g2, y d = fst (Binomial_sample k (col_mul_col (p d) (z d)) g2)).
Proof.
  unfold generate, Normal_sample, bind, ret.
  pose proof (Uniform_sample_length n (- 1) 1 g) as Hx.
  destruct (Uniform_sample (repeat (- 1) n) (repeat 1 n) g) as [x0 g1].
  simpl in Hx.
  destruct (randn g1) as [a0 g2].
  destruct (randn g2) as [a1 g3].
  destruct (randn g3) as [a2 g4].
  destruct (randn g4) as [b0 g5].
  destruct (randn g5) as [b1 g6].
  destruct (randn g6) as [b2 g7].
  cbv zeta.
  match goal with
  | |- context [Bernoulli_sample ?q g7] =>
      destruct (Bernoulli_sample q g7) as [zs g8] eqn:Ez
  end.
  match goal with
  | |- context [Binomial_sample k ?q g8] =>
      destruct (Binomial_sample k q g8) as [ys g9] eqn:Ey
  end.
  simpl.
  rewrite !curve_length, sort_length.
  repeat split; try assumption.
  - exists g7; rewrite Ez; reflexivity.
  - exists g8; rewrite Ey; reflexivity.
Qed.

Lemma generate_support (n k : nat) (g : Generator) :
  Forall (fun zy => (0 <= snd zy <= k)%nat /\ (fst zy = 0 -> snd zy = 0%nat))
         (sites (fst (generate n k g))).
Proof.
  destruct (generate_stages n k g) as [Hx [Hp [Hpsi [[g1 Hz] [g2 Hy]]]]].
  set (d := fst (generate n k g)) in *.
  assert (Hlz : length (z d) = n).
  { rewrite Hz; unfold Bernoulli_sample; rewrite mapM_length; exact Hpsi. }
  pose proof (Binomial_sample_support k (col_mul_col (p d) (z d)) g2) as Hs.
  rewrite <- Hy in Hs.
  destruct (sites_support k (p d) (z d) (y d)) as [_ Hall];
    [congruence|exact Hs|exact Hall].
Qed.

Lemma generate_lengths (n k : nat) (g : Generator) :
  length (x (fst (generate n k g))) = n /\
  length (z (fst (generate n k g))) = n /\
  length (y (fst (generate n k g))) = n.
Proof.
  destruct (generate_stages n k g) as [Hx [Hp [Hpsi [[g1 Hz] [g2 Hy]]]]].
  set (d := fst (generate n k g)) in *.
  assert (Hlz : length (z d) = n).
  { rewrite Hz; unfold Bernoulli_sample; rewrite mapM_length; exact Hpsi. }
  split; [exact Hx|]; split; [exact Hlz|].
  rewrite Hy; unfold Binomial_sample, col_mul_col.
  rewrite mapM_length, length_map, length_combine, Hp, Hlz.
  apply Nat.min_id.
Qed.

End GeneratorFacts.

Section Generation.
Import Torch Rng RngFacts DataGenerator GeneratorFacts.

(** C7: every site the data generator produces has 0 <= y <= k, and
    y = 0 whenever its latent state z is 0, because the success
    probability of its binomial draw is p z = 0. *)
Theorem generated_counts_in_support (n k : nat) (g : Generator) :
  let d := fst (generate n k g) in
  length (z d) = n /\ length (y d) = n /\
  Forall (fun zy => (0 <= snd zy <= k)%nat /\ (fst zy = 0 -> snd zy = 0%nat))
         (sites d) /\
  Forall (fun zi => zi = 0 \/ zi = 1) (z d).
Proof.
  intros d.
  destruct (generate_lengths n k g) as [_ [Hlz Hly]].
  split; [exact Hlz|]; split; [exact Hly|].
  split; [apply generate_support|].
  destruct (generate_stages n k g) as [_ [_ [_ [[g1 Hz] _]]]].
  unfold d; rewrite Hz; apply Bernoulli_sample_values.
Qed.

End Generation.

(** ** The training loop *)

Module TrainingFacts.
Import Torch Rng RngFacts DataGenerator GeneratorFacts Training.



(** The minibatches partition the pass: the fuel is enough. *)
Lemma chunks_concat (bs fuel : nat) (l : batch) :
  (0 < bs)%nat -> (length l <= fuel)%nat -> concat (chunks fuel bs l) = l.
Proof.
  intros Hbs; revert l; induction fuel as [|fuel IH]; intros l Hl.
  - destruct l; [reflexivity|simpl in Hl; lia].
  - destruct l as [|a l]; [reflexivity|].
    cbn [chunks concat].
    rewrite IH; [apply firstn_skipn|].
    rewrite length_skipn; simpl length in *; lia.
Qed.


Section Loop.
Variable optimizer_step : Net.Net -> column -> list nat -> Net.Net.
Variable shuffle : batch -> M batch.

Lemma DataLoader_some (dataset : batch) (bs : nat) :
  dataset <> [] -> (0 < bs)%nat ->
  DataLoader shuffle dataset bs
  = Some (l <~ shuffle dataset ;; ret (chunks (length l) bs l)).
Proof.
  intros Hne H; unfold DataLoader.
  destruct dataset; [contradiction|].
  destruct bs; [lia|reflexivity].
Qed.

Lemma dataset_length (n k : nat) (g : Generator) :
  length (combine (x (fst (generate n k g))) (y (fst (generate n k g)))) = n.
Proof.
  destruct (generate_lengths n k g) as [Hx [_ Hy]].
  rewrite length_combine, Hx, Hy; apply Nat.min_id.
Qed.




End Loop.

End TrainingFacts.


(** ** Invalid settings *)

Module ProgramFacts.
Import Torch Rng RngFacts DataGenerator GeneratorFacts Training TrainingFacts.

(** [draw_latent] is the part of [generate] that precedes the binomial
    draw. *)
Lemma generate_after_latent (n k : nat) (g : Generator) :
  generate n k g
  = (latent <~ Program.draw_latent n ;;
     let '(xs, ps, psis, zs) := latent in
     ys <~ Binomial_sample k (col_mul_col ps zs) ;;
     ret {| x := xs; p := ps; psi := psis; z := zs; y := ys |}) g.
Proof.
  unfold generate, Program.draw_latent, Normal_sample, bind, ret.
  destruct (Uniform_sample (repeat (- 1) n) (repeat 1 n) g) as [x0 g1].
  destruct (randn g1) as [a0 g2].
  destruct (randn g2) as [a1 g3].
  destruct (randn g3) as [a2 g4].
  destruct (randn g4) as [b0 g5].
  destruct (randn g5) as [b1 g6].
  destruct (randn g6) as [b2 g7].
  cbv zeta.
  match goal with
  | |- context [Bernoulli_sample ?q g7] =>
      destruct (Bernoulli_sample q g7) as [zs g8]
  end.
  reflexivity.
Qed.

Section Loop.
Variable optimizer_step : Net.Net -> list R -> list nat -> Net.Net.
Variable shuffle : batch -> M batch.






End Loop.

End ProgramFacts.

Section Configuration.
Import Torch Rng RngFacts DataGenerator GeneratorFacts Training TrainingFacts
       ProgramFacts.

Variable optimizer_step : Net.Net -> list R -> list nat -> Net.Net.
Variable shuffle : batch -> M batch.


End Configuration.

Section InvalidConfiguration.
Import Torch Rng RngFacts DataGenerator GeneratorFacts Training TrainingFacts
       ProgramFacts.



End InvalidConfiguration.

(** * Further properties of the notebook's code *)

(** ** The tensors of the training step *)

Section LikelihoodShape.
Import Torch TorchFacts BinomialDist BinomialFacts Likelihood Closed
       LikelihoodFacts LossFacts.

Lemma traverse_some_length {A B : Type} (f : A -> option B) (l : list A) (bs : list B) :
  traverse f l = Some bs -> length bs = length l.
Proof.
  revert bs; induction l as [|a l IH]; simpl; intros bs H.
  - inversion H; reflexivity.
  - destruct (f a) as [b|]; simpl in H; [|discriminate].
    destruct (traverse f l) as [bs'|]; simpl in H; [|discriminate].
    inversion H; subst; simpl; f_equal; apply IH; reflexivity.
Qed.

Lemma cols_length (b : list Site) :
  length (psi_col b) = length b /\ length (p_col b) = length b /\
  length (y_col b) = length b.
Proof. unfold psi_col, p_col, y_col; rewrite !length_map; auto. Qed.

(** X1: whenever the training step's [log_prob] is defined on a minibatch
    of B sites it is a B x B tensor, not a column of B per-site values:
    the (B,1) mask times the (B,) vector [lp_maybe_absent] broadcasts. *)
Theorem log_prob_is_square (k : nat) (b : list Site) (m : list (list R)) :
  Likelihood.log_prob k (psi_col b) (p_col b) (y_col b) = Some m ->
  length m = length b /\ Forall (fun row => length row = length b) m.
Proof.
  unfold Likelihood.log_prob, lp_maybe_absent.
  destruct (cols_length b) as [Lpsi [Lp Ly]].
  destruct (lp_present k (psi_col b) (p_col b) (y_col b)) as [lp|] eqn:Elp;
    [|discriminate].
  cbn [bind].
  destruct (log_1m_psi (psi_col b)) as [la|] eqn:Ela; [|discriminate].
  cbn [bind].
  destruct (logsumexp_dim1 (cat_dim1 lp la)) as [lma|] eqn:Elma; [|discriminate].
  cbn [bind]; intros H; inversion H; subst m; clear H.
  apply traverse_some_length in Elp, Ela, Elma.
  unfold zip3 in Elp; rewrite !length_combine, Lpsi, Lp, Ly, !Nat.min_id in Elp.
  rewrite Lpsi in Ela.
  unfold cat_dim1 in Elma.
  rewrite length_map, length_combine, Elp, Ela, Nat.min_id in Elma.
  assert (Hdp : length (col_mul_col (definitely_present (y_col b)) lp) = length b).
  { unfold col_mul_col, definitely_present.
    rewrite length_map, length_combine, length_map, Ly, Elp; apply Nat.min_id. }
  assert (Hma : length (col_mul_vec (maybe_absent (y_col b)) lma) = length b).
  { unfold col_mul_vec, maybe_absent; rewrite !length_map; exact Ly. }
  split.
  - unfold col_add_mat.
    rewrite length_map, length_combine, Hdp, Hma; apply Nat.min_id.
  - unfold col_add_mat.
    apply Forall_forall; intros row Hrow.
    apply in_map_iff in Hrow as [[a r] [<- Hin]].
    apply in_combine_r in Hin.
    unfold col_mul_vec in Hin.
    apply in_map_iff in Hin as [ai [<- _]].
    cbn [fst snd]; rewrite !length_map; exact Elma.
Qed.

Lemma log_prob_is_square_witness :
  exists m,
    Likelihood.log_prob 2 [/ 2; / 2] [/ 2; / 2] [1%nat; 0%nat] = Some m /\
    length m = 2%nat /\ Forall (fun row => length row = 2%nat) m.
Proof.
  pose (b := [ {| site_psi := / 2; site_p := / 2; site_y := 1 |};
               {| site_psi := / 2; site_p := / 2; site_y := 0 |} ]).
  assert (Hb : Forall (valid 2) b).
  { repeat constructor; simpl; try lra; lia. }
  pose proof (batch_log_prob_value 2 b Hb) as Hm.
  eexists; split; [exact Hm|].
  exact (log_prob_is_square 2 b _ Hm).
Defined.

End LikelihoodShape.

(** ** The value of the loss *)

Section LossValue.
Import Torch TorchFacts BinomialDist BinomialFacts Likelihood Closed
       LikelihoodFacts LossFacts.

Lemma to_float_range (c : bool) : 0 <= to_float c <= 1.
Proof. destruct c; simpl; lra. Qed.

Lemma sum_absent_count (b : list Site) :
  sum (map (fun s => to_float (site_y s =? 0)%nat) b)
  = INR (length (filter (fun s => (site_y s =? 0)%nat) b)).
Proof.
  induction b as [|s b IH]; [reflexivity|].
  simpl map; simpl filter; simpl sum; rewrite IH.
  destruct (site_y s =? 0)%nat; [|simpl; lra].
  simpl length; rewrite S_INR; simpl; lra.
Qed.

(** X2: on every minibatch of B sites with psi in (0,1) and y <= k, the
    loss of the training step is
    - ( (1/B) sum_i present_i lp_present_i
        + (n0 / B^2) sum_j lp_maybe_absent_j ),
    with n0 the number of sites of the minibatch with y = 0: each
    undetected site is averaged with the marginalized term of all B
    sites. *)
Theorem batch_loss_closed_form (k : nat) (b : list Site) :
  b <> [] -> Forall (valid k) b ->
  exists lp lma,
    lp_present k (psi_col b) (p_col b) (y_col b) = Some lp /\
    lp_maybe_absent k (psi_col b) (p_col b) (y_col b) = Some lma /\
    batch_loss k b
    = Some (- (sum (col_mul_col (definitely_present (y_col b)) lp)
               / INR (length b)
               + INR (length (filter (fun s => (site_y s =? 0)%nat) b))
                 * sum lma / (INR (length b) * INR (length b)))).
Proof.
  intros Hne Hb.
  exists (map (LP k) b), (map (LMA k) b).
  split; [apply lp_present_value; exact Hb|].
  split; [apply lp_maybe_absent_value; exact Hb|].
  rewrite batch_loss_value by assumption.
  rewrite sum_absent_count.
  assert (Hdp : col_mul_col (definitely_present (y_col b)) (map (LP k) b)
                = map (fun s => to_float (0 <? site_y s)%nat * LP k s) b).
  { unfold col_mul_col, definitely_present, y_col.
    clear; induction b as [|s b IH]; simpl; [reflexivity|].
    rewrite IH; reflexivity. }
  rewrite Hdp.
  pose proof (length_pos_INR b Hne).
  do 2 f_equal; field; lra.
Qed.

Lemma batch_loss_closed_form_witness :
  exists v, batch_loss 2 [ {| site_psi := / 2; site_p := / 2; site_y := 1 |};
                           {| site_psi := / 2; site_p := / 2; site_y := 0 |} ]
            = Some v.
Proof.
  destruct (batch_loss_closed_form 2
              [ {| site_psi := / 2; site_p := / 2; site_y := 1 |};
                {| site_psi := / 2; site_p := / 2; site_y := 0 |} ])
    as [lp [lma [_ [_ H]]]].
  - discriminate.
  - repeat constructor; simpl; try lra; lia.
  - eexists; exact H.
Defined.

Lemma sum_permutation (l l' : list R) : Permutation l l' -> sum l = sum l'.
Proof.
  induction 1 as [|a l l' _ IH|a c l|l l' l'' _ IH1 _ IH2]; simpl; lra.
Qed.

(** X4: the loss does not depend on the order of the sites within the
    minibatch. *)
Theorem batch_loss_permutation (k : nat) (b b' : list Site) :
  Forall (valid k) b -> Permutation b b' -> batch_loss k b = batch_loss k b'.
Proof.
  intros Hb Hperm.
  destruct b as [|s b0].
  - apply Permutation_nil in Hperm; subst; reflexivity.
  - assert (Hne' : b' <> []).
    { intros ->; apply Permutation_sym, Permutation_nil in Hperm; discriminate. }
    assert (Hb' : Forall (valid k) b') by (eapply Permutation_Forall; eassumption).
    rewrite !batch_loss_value by (assumption || discriminate).
    rewrite (Permutation_length Hperm).
    rewrite (sum_permutation _ _
               (Permutation_map (fun s => to_float (0 <? site_y s)%nat * LP k s) Hperm)).
    rewrite (sum_permutation _ _
               (Permutation_map (fun s => to_float (site_y s =? 0)%nat) Hperm)).
    rewrite (sum_permutation _ _ (Permutation_map (LMA k) Hperm)).
    reflexivity.
Qed.

Lemma batch_loss_permutation_witness :
  batch_loss 2 [ {| site_psi := / 2; site_p := / 2; site_y := 1 |};
                 {| site_psi := / 4; site_p := / 2; site_y := 0 |} ]
  = batch_loss 2 [ {| site_psi := / 4; site_p := / 2; site_y := 0 |};
                   {| site_psi := / 2; site_p := / 2; site_y := 1 |} ].
Proof.
  apply batch_loss_permutation.
  - repeat constructor; simpl; try lra; lia.
  - apply perm_swap.
Defined.

End LossValue.

(** ** The binomial distribution and the log-sum-exp *)

Section Distribution.
Import Torch TorchFacts BinomialDist BinomialFacts.

Lemma sum_seq_f (f : nat -> R) (n : nat) :
  sum (map f (seq 0 (S n))) = sum_f_R0 f n.
Proof.
  induction n as [|n IH]; [simpl; lra|].
  rewrite seq_S, map_app, sum_app, IH; simpl; lra.
Qed.

(** X6: for every [probs] in [0,1], also exactly 0 or exactly 1, the
    binomial log-probability is finite at every count 0..k, it is the
    logarithm of the binomial mass at the clamped probability, and the
    probabilities exp(log_prob) add up to one. *)
Theorem binomial_log_prob_normalised (k : nat) (p : R) :
  0 <= p <= 1 ->
  exists ll,
    traverse (BinomialDist.log_prob k p) (seq 0 (S k)) = Some ll /\
    ll = map (fun y => ln (pmf k (clamp_probs p) y)) (seq 0 (S k)) /\
    sum (map exp ll) = 1.
Proof.
  intros _.
  pose proof (clamp_probs_open p) as Hq.
  exists (map (fun y => ln (pmf k (clamp_probs p) y)) (seq 0 (S k))).
  split.
  - apply traverse_total, Forall_forall.
    intros y Hy; apply in_seq in Hy.
    apply binomial_log_prob_value; lia.
  - split; [reflexivity|].
    rewrite map_map.
    rewrite (map_ext _ (pmf k (clamp_probs p))).
    + rewrite sum_seq_f; apply pmf_total.
    + intros y; apply exp_ln, pmf_pos; exact Hq.
Qed.

Lemma binomial_log_prob_normalised_witness :
  exists ll,
    traverse (BinomialDist.log_prob 3 0) (seq 0 4) = Some ll /\
    sum (map exp ll) = 1.
Proof.
  destruct (binomial_log_prob_normalised 3 0) as [ll [H1 [_ H2]]]; [lra|].
  exists ll; split; assumption.
Defined.

Lemma clamp_probs_complement (p : R) : clamp_probs (1 - p) = 1 - clamp_probs p.
Proof.
  pose proof eps_bounds as He.
  unfold clamp_probs, clamp, Rmax.
  destruct (Rle_dec (1 - p) eps), (Rle_dec p eps); unfold Rmin;
    repeat match goal with
           | |- context [Rle_dec ?a ?b] => destruct (Rle_dec a b)
           end; lra.
Qed.

Lemma pmf_complement (k y : nat) (q : R) :
  (y <= k)%nat -> pmf k (1 - q) (k - y) = pmf k q y.
Proof.
  intros Hy; unfold pmf.
  rewrite <- (pascal_step1 k y Hy).
  replace (k - (k - y))%nat with y by lia.
  replace (1 - (1 - q)) with q by lra.
  ring.
Qed.

(** X7: counting failures instead of successes does not change the
    log-probability: log_prob of y under probability p equals log_prob of
    k - y under probability 1 - p. *)
Theorem binomial_log_prob_complement (k y : nat) (p : R) :
  (y <= k)%nat ->
  BinomialDist.log_prob k p y = BinomialDist.log_prob k (1 - p) (k - y).
Proof.
  intros Hy.
  rewrite !binomial_log_prob_value by lia.
  rewrite clamp_probs_complement, pmf_complement by exact Hy.
  reflexivity.
Qed.

Lemma binomial_log_prob_complement_witness :
  BinomialDist.log_prob 3 (/ 4) 1 = BinomialDist.log_prob 3 (1 - / 4) (3 - 1).
Proof. apply binomial_log_prob_complement; lia. Defined.

(** X8: the logits the distribution works on are always finite, and the
    sigmoid maps them back to the clamped probability: to [probs] itself
    when eps <= probs <= 1 - eps, to eps below and to 1 - eps above. *)
Theorem logits_round_trip (p : R) :
  exists l,
    probs_to_logits p = Some l /\
    sigmoid l = clamp_probs p /\
    (eps <= p <= 1 - eps -> sigmoid l = p) /\
    (p <= eps -> sigmoid l = eps) /\
    (1 - eps <= p -> sigmoid l = 1 - eps).
Proof.
  pose proof (clamp_probs_open p) as Hq.
  pose proof eps_bounds as He.
  exists (ln (clamp_probs p) - ln (1 - clamp_probs p)).
  split; [apply probs_to_logits_value|].
  assert (Hs : sigmoid (ln (clamp_probs p) - ln (1 - clamp_probs p))
               = clamp_probs p).
  { unfold sigmoid.
    replace (- (ln (clamp_probs p) - ln (1 - clamp_probs p)))
      with (ln (1 - clamp_probs p) - ln (clamp_probs p)) by lra.
    unfold Rminus at 1.
    rewrite exp_plus, exp_Ropp, !exp_ln by lra.
    field; lra. }
  split; [exact Hs|].
  rewrite Hs.
  split; [intros H; apply clamp_probs_inside; exact H|].
  split; intros H; unfold clamp_probs, clamp, Rmax;
    destruct (Rle_dec p eps); unfold Rmin;
    repeat match goal with
           | |- context [Rle_dec ?a ?b] => destruct (Rle_dec a b)
           end; lra.
Qed.

Lemma exp_shift_sum (m : R) (row : list R) :
  sum (map (fun v => exp (v - m)) row) = exp (- m) * sum (map exp row).
Proof.
  induction row as [|v row IH]; simpl; [lra|].
  rewrite IH; unfold Rminus; rewrite exp_plus; lra.
Qed.

Lemma sum_exp_pos (row : list R) : row <> [] -> 0 < sum (map exp row).
Proof.
  intros Hne; destruct row as [|v row]; [contradiction|].
  clear Hne; revert v; induction row as [|w row IH]; intros v; simpl.
  - pose proof (exp_pos v); lra.
  - pose proof (exp_pos v) as Hv; pose proof (IH w) as Hw; simpl in Hw; lra.
Qed.

(** X9: on every non-empty row the maximum-subtracting log-sum-exp is
    finite and equals the logarithm of the sum of the exponentials; on an
    empty row it is not finite. *)
Theorem row_logsumexp_value (row : list R) :
  row_logsumexp [] = None /\
  (row <> [] -> row_logsumexp row = Some (ln (sum (map exp row)))).
Proof.
  split; [reflexivity|].
  intros Hne; destruct row as [|r rs]; [contradiction|].
  unfold row_logsumexp.
  set (m := fold_left Rmax rs r).
  rewrite exp_shift_sum.
  pose proof (sum_exp_pos (r :: rs) Hne) as Hpos.
  pose proof (exp_pos (- m)) as Hm.
  rewrite log_pos by (apply Rmult_lt_0_compat; assumption).
  cbn [bind]; f_equal.
  rewrite ln_mult, ln_exp by assumption.
  lra.
Qed.

Lemma row_logsumexp_value_witness :
  row_logsumexp [0; 1; 2] = Some (ln (sum (map exp [0; 1; 2]))).
Proof. apply row_logsumexp_value; discriminate. Defined.

End Distribution.

(** ** The data generator *)

Module GeneratorOrder.
Import Torch TorchFacts Rng RngFacts DataGenerator GeneratorFacts.

Lemma insert_permutation (a : R) (l : list R) : Permutation (a :: l) (insert a l).
Proof.
  induction l as [|b l IH]; simpl; [apply Permutation_refl|].
  destruct (Rle_dec a b); [apply Permutation_refl|].
  eapply Permutation_trans; [apply perm_swap|].
  apply perm_skip; exact IH.
Qed.

Lemma sort_permutation (l : list R) : Permutation l (sort l).
Proof.
  induction l as [|a l IH]; simpl; [constructor|].
  eapply Permutation_trans; [apply perm_skip; exact IH|].
  apply insert_permutation.
Qed.

Lemma insert_hd (a c : R) (l : list R) :
  c <= a -> HdRel Rle c l -> HdRel Rle c (insert a l).
Proof.
  intros Hca Hl; destruct l as [|b l]; simpl; [constructor; exact Hca|].
  destruct (Rle_dec a b); constructor; [exact Hca|].
  apply HdRel_inv in Hl; exact Hl.
Qed.

Lemma insert_sorted (a : R) (l : list R) : Sorted Rle l -> Sorted Rle (insert a l).
Proof.
  induction 1 as [|b l Hs IH Hb]; simpl; [repeat constructor|].
  destruct (Rle_dec a b) as [Hab|Hab].
  - constructor; [constructor; assumption|constructor; exact Hab].
  - constructor; [exact IH|].
    apply insert_hd; [lra|exact Hb].
Qed.

Lemma sort_sorted (l : list R) : Sorted Rle (sort l).
Proof.
  induction l as [|a l IH]; simpl; [constructor|].
  apply insert_sorted; exact IH.
Qed.

Lemma Forall2_Forall_right {A B : Type} (P : A -> Prop) (Q : A -> B -> Prop)
      (T : B -> Prop) (l : list A) (l' : list B) :
  (forall a b, P a -> Q a b -> T b) ->
  Forall P l -> Forall2 Q l l' -> Forall T l'.
Proof.
  intros H HP HQ; induction HQ as [|a b l l' Hab _ IH]; constructor.
  - apply (H a b); [apply Forall_inv in HP; exact HP|exact Hab].
  - apply IH; apply Forall_inv_tail in HP; exact HP.
Qed.

Lemma Uniform_sample_range (n : nat) (g : Generator) :
  Forall (fun v => - 1 <= v < 1)
         (fst (Uniform_sample (repeat (- 1) n) (repeat 1 n) g)).
Proof.
  unfold Uniform_sample.
  apply (Forall2_Forall_right
           (fun lh => lh = (- 1, 1))
           (fun lh v => exists u, 0 <= u < 1 /\ v = fst lh + u * (snd lh - fst lh))
           _ (combine (repeat (- 1) n) (repeat 1 n))).
  - intros lh v -> [u [Hu ->]]; simpl; lra.
  - clear g; induction n as [|n IH]; simpl; constructor; [reflexivity|exact IH].
  - apply mapM_Forall2; intros lh g'; unfold bind, ret.
    pose proof (rand_range g') as Hu.
    destruct (rand g') as [u g'']; simpl in *.
    exists u; split; [exact Hu|reflexivity].
Qed.

(** The covariates, read off the result of [generate]. *)
Lemma generate_x (n k : nat) (g : Generator) :
  x (fst (generate n k g))
  = sort (fst (Uniform_sample (repeat (- 1) n) (repeat 1 n) g)).
Proof.
  unfold generate, Normal_sample, bind, ret, randn.
  destruct (Uniform_sample (repeat (- 1) n) (repeat 1 n) g) as [x0 g1].
  cbv zeta; cbn [fst snd bits gauss].
  match goal with
  | |- context [Bernoulli_sample ?q ?gg] =>
      destruct (Bernoulli_sample q gg) as [zs g8]
  end.
  match goal with
  | |- context [Binomial_sample k ?q g8] =>
      destruct (Binomial_sample k q g8) as [ys g9]
  end.
  reflexivity.
Qed.

End GeneratorOrder.

Section GeneratedData.
Import Torch TorchFacts Rng RngFacts DataGenerator GeneratorFacts
       GeneratorOrder.

(** X11: the covariates of a generated data set are the n uniform draws
    put in ascending order: a permutation of the raw sample, sorted, and
    every one in [-1, 1). *)
Theorem generated_covariates (n k : nat) (g : Generator) :
  let d := fst (generate n k g) in
  length (x d) = n /\
  Sorted Rle (x d) /\
  Forall (fun v => - 1 <= v < 1) (x d) /\
  Permutation (fst (Uniform_sample (repeat (- 1) n) (repeat 1 n) g)) (x d).
Proof.
  intros d.
  destruct (generate_lengths n k g) as [Hx _].
  pose proof (generate_x n k g) as Ex.
  fold d in Hx, Ex.
  split; [exact Hx|].
  rewrite Ex.
  split; [apply sort_sorted|].
  split; [|apply sort_permutation].
  eapply Permutation_Forall; [apply sort_permutation|].
  apply Uniform_sample_range.
Qed.

Lemma detected_le_latent (zs : list R) :
  forall ys : list nat,
    length zs = length ys ->
    Forall (fun zi => zi = 0 \/ zi = 1) zs ->
    Forall (fun zy : R * nat => fst zy = 0 -> snd zy = 0%nat) (combine zs ys) ->
    Forall2 Rle (Reporting.detected ys) zs.
Proof.
  induction zs as [|zi zs IH]; intros ys Hlen Hz Hzy.
  - destruct ys; [constructor|discriminate].
  - destruct ys as [|yi ys]; [discriminate|].
    simpl in Hzy.
    constructor.
    + apply Forall_inv in Hz; apply Forall_inv in Hzy; simpl in Hzy.
      destruct Hz as [-> | ->].
      * rewrite Hzy by reflexivity; simpl; lra.
      * pose proof (to_float_range (0 <? yi)%nat); lra.
    + apply IH; [simpl in Hlen; lia| |].
      * apply Forall_inv_tail in Hz; exact Hz.
      * apply Forall_inv_tail in Hzy; exact Hzy.
Qed.

Lemma sum_Forall2_le (l l' : list R) : Forall2 Rle l l' -> sum l <= sum l'.
Proof. induction 1; simpl; lra. Qed.

(** X14: in a generated data set the detection indicator never exceeds
    the latent occupancy state, site by site, so the number of sites with
    a detection is at most the number of occupied sites; and with k > 0
    every detection frequency y/k lies in [0,1]. *)
Theorem detections_below_occupancy (n k : nat) (g : Generator) :
  let d := fst (generate n k g) in
  Forall2 Rle (Reporting.detected (y d)) (z d) /\
  sum (Reporting.detected (y d)) <= sum (z d) /\
  ((0 < k)%nat ->
   Forall (fun f => 0 <= f <= 1) (Reporting.detection_frequency k (y d))).
Proof.
  intros d.
  destruct (generate_lengths n k g) as [_ [Lz Ly]].
  destruct (generate_stages n k g) as [_ [_ [_ [[g1 Hz] _]]]].
  pose proof (generate_support n k g) as Hs.
  fold d in Lz, Ly, Hz, Hs.
  assert (H2 : Forall2 Rle (Reporting.detected (y d)) (z d)).
  { apply detected_le_latent.
    - congruence.
    - rewrite Hz; apply Bernoulli_sample_values.
    - eapply Forall_impl; [|exact Hs]; intros zy [_ H]; exact H. }
  split; [exact H2|].
  split; [apply sum_Forall2_le; exact H2|].
  intros Hk.
  assert (Hy : Forall (fun yi => (yi <= k)%nat) (y d)).
  { apply Forall_forall; intros yi Hin.
    destruct (In_nth _ _ 0%nat Hin) as [j [Hj Ej]].
    assert (Hc : In (nth j (z d) 0, yi) (sites d)).
    { unfold sites; rewrite <- Ej.
      rewrite <- (combine_nth (z d) (y d) j 0 0%nat) by congruence.
      apply nth_In; rewrite length_combine, Lz, Ly, Nat.min_id; lia. }
    rewrite Forall_forall in Hs; apply Hs in Hc; simpl in Hc; lia. }
  unfold Reporting.detection_frequency.
  apply Forall_forall; intros f Hf.
  apply in_map_iff in Hf as [yi [<- Hin]].
  rewrite Forall_forall in Hy; specialize (Hy yi Hin).
  assert (0 < INR k) by (apply lt_0_INR; exact Hk).
  assert (0 <= INR yi) by apply pos_INR.
  assert (INR yi <= INR k) by (apply le_INR; exact Hy).
  split.
  - apply Rmult_le_pos; [assumption|apply Rlt_le, Rinv_0_lt_compat; assumption].
  - apply (Rmult_le_reg_r (INR k)); [assumption|].
    unfold Rdiv; rewrite Rmult_assoc, Rinv_l by lra; lra.
Qed.

End GeneratedData.

(** ** Minibatches and the training trace *)

Module LoopFacts.
Import Torch Rng RngFacts DataGenerator GeneratorFacts Training TrainingFacts.

Lemma Forall_firstn_skipn {A : Type} (P : A -> Prop) (m : nat) (l : list A) :
  Forall P l -> Forall P (firstn m l) /\ Forall P (skipn m l).
Proof.
  intros H; rewrite <- (firstn_skipn m l) in H.
  apply Forall_app in H; exact H.
Qed.

Lemma chunks_bounds (bs fuel : nat) (l : batch) :
  (0 < bs)%nat ->
  Forall (fun c => (0 < length c <= bs)%nat) (chunks fuel bs l).
Proof.
  intros Hbs; revert l; induction fuel as [|fuel IH]; intros l; [constructor|].
  destruct l as [|a l]; [constructor|].
  cbn [chunks]; constructor; [|apply IH].
  rewrite length_firstn; simpl length; lia.
Qed.

Lemma ceil_step (L bs : nat) :
  (0 < bs)%nat -> (0 < L)%nat ->
  S ((L - bs + bs - 1) / bs) = ((L + bs - 1) / bs)%nat.
Proof.
  intros Hbs HL.
  replace (L + bs - 1)%nat with (L - 1 + 1 * bs)%nat by lia.
  rewrite Nat.div_add by lia.
  destruct (Nat.le_gt_cases bs L) as [Hle|Hgt].
  - replace (L - bs + bs - 1)%nat with (L - 1)%nat by lia; lia.
  - replace (L - bs + bs - 1)%nat with (bs - 1)%nat by lia.
    rewrite !Nat.div_small by lia; lia.
Qed.

Lemma chunks_count (bs fuel : nat) (l : batch) :
  (0 < bs)%nat -> (length l <= fuel)%nat ->
  length (chunks fuel bs l) = ((length l + bs - 1) / bs)%nat.
Proof.
  intros Hbs; revert l; induction fuel as [|fuel IH]; intros l Hl.
  - destruct l; [|simpl in Hl; lia].
    simpl; rewrite Nat.div_small by lia; reflexivity.
  - destruct l as [|a l].
    + simpl; rewrite Nat.div_small by lia; reflexivity.
    + cbn [chunks length].
      rewrite IH by (rewrite length_skipn; simpl length in *; lia).
      rewrite length_skipn.
      change (length (a :: l)) with (S (length l)).
      apply ceil_step; lia.
Qed.

Section Loop.
Variable optimizer_step : Net.Net -> list R -> list nat -> Net.Net.
Variable shuffle : batch -> M batch.

Lemma train_batches_trace (k : nat) (batches : list batch) :
  forall net rl,
  exists ls,
    snd (train_batches optimizer_step k net rl batches) = rl ++ ls /\
    length ls = length batches.
Proof.
  induction batches as [|xy rest IH]; intros net rl.
  - exists []; simpl; rewrite app_nil_r; split; reflexivity.
  - cbn [train_batches].
    destruct (IH (optimizer_step net (map fst xy) (map snd xy))
                 (rl ++ [step_loss k net xy])) as [ls [E L]].
    exists (step_loss k net xy :: ls).
    rewrite E, <- app_assoc; simpl; split; [reflexivity|lia].
Qed.

Lemma train_epochs_trace (k c : nat) (loader : M (list batch)) :
  (forall g, length (fst (loader g)) = c) ->
  forall epochs net rl g,
  exists ls,
    snd (fst (train_epochs optimizer_step epochs k loader net rl g)) = rl ++ ls /\
    length ls = (epochs * c)%nat.
Proof.
  intros Hc; induction epochs as [|epochs IH]; intros net rl g.
  - exists []; simpl; rewrite app_nil_r; split; reflexivity.
  - cbn [train_epochs]; unfold bind.
    specialize (Hc g).
    destruct (loader g) as [batches g1]; cbn [fst] in Hc.
    destruct (train_batches_trace k batches net rl) as [ls1 [E1 L1]].
    destruct (train_batches optimizer_step k net rl batches) as [net' rl'].
    cbn [snd] in E1; subst rl'.
    destruct (IH net' (rl ++ ls1) g1) as [ls2 [E2 L2]].
    exists (ls1 ++ ls2).
    rewrite E2, app_assoc, length_app; split; [reflexivity|lia].
Qed.

Lemma notebook_run (cfg : Config) (net0 : Net.Net) (g : Generator) :
  (0 < n cfg)%nat -> (0 < batch_size cfg)%nat ->
  let d := fst (generate (n cfg) (k cfg) g) in
  let dataset := combine (x d) (y d) in
  let loader := l <~ shuffle dataset ;; ret (chunks (length l) (batch_size cfg) l) in
  exists run,
    fst (notebook optimizer_step shuffle cfg net0 g) = Some run /\
    running_loss run
    = snd (fst (train_epochs optimizer_step (Z.to_nat (n_epoch cfg)) (k cfg)
                  loader net0 [] (snd (generate (n cfg) (k cfg) g)))).
Proof.
  intros Hn Hbs d dataset loader.
  pose proof (dataset_length (n cfg) (k cfg) g) as Hd.
  unfold notebook; unfold bind at 1.
  subst loader dataset d.
  destruct (generate (n cfg) (k cfg) g) as [d g1]; cbn [fst snd] in *.
  rewrite DataLoader_some;
    [|intros E; rewrite E in Hd; simpl in Hd; lia|exact Hbs].
  unfold bind at 1.
  match goal with
  | |- context [train_epochs ?os ?e ?kk ?ld ?nt ?rl g1] =>
      destruct (train_epochs os e kk ld nt rl g1) as [r g2]
  end.
  unfold ret; cbn [fst snd].
  eexists; split; reflexivity.
Qed.

End Loop.

End LoopFacts.

Section Minibatches.
Import Torch Rng RngFacts DataGenerator GeneratorFacts Training TrainingFacts
       LoopFacts.

(** X15: with a positive batch size the minibatches of one pass are a
    partition of the shuffled data set in its order: concatenated they
    give it back, none is empty, none is longer than the batch size, and
    there are ceil(n / batch_size) of them. *)
Theorem minibatches_partition (bs : nat) (l : batch) :
  (0 < bs)%nat ->
  concat (chunks (length l) bs l) = l /\
  Forall (fun c => (0 < length c <= bs)%nat) (chunks (length l) bs l) /\
  length (chunks (length l) bs l) = ((length l + bs - 1) / bs)%nat.
Proof.
  intros Hbs.
  split; [apply chunks_concat; [exact Hbs|lia]|].
  split; [apply chunks_bounds; exact Hbs|].
  apply chunks_count; [exact Hbs|lia].
Qed.

Lemma minibatches_partition_witness :
  length (chunks (length [(0, 1%nat); (1, 0%nat); (2, 2%nat)]) 2
                 [(0, 1%nat); (1, 0%nat); (2, 2%nat)])
  = ((length [(0, 1%nat); (1, 0%nat); (2, 2%nat)] + 2 - 1) / 2)%nat.
Proof.
  apply (minibatches_partition 2 [(0, 1%nat); (1, 0%nat); (2, 2%nat)]); lia.
Defined.

Variable optimizer_step : Net.Net -> list R -> list nat -> Net.Net.
Variable shuffle : batch -> M batch.

(** X16: when shuffling keeps the number of examples, a run with n > 0
    sites and a positive batch size appends exactly one loss per
    minibatch: the training trace has
    max(n_epoch, 0) * ceil(n / batch_size) entries. *)
Theorem training_trace_length (cfg : Config) (net0 : Net.Net) (g : Generator) :
  (forall l g', length (fst (shuffle l g')) = length l) ->
  (0 < n cfg)%nat -> (0 < batch_size cfg)%nat ->
  exists run,
    fst (notebook optimizer_step shuffle cfg net0 g) = Some run /\
    length (running_loss run)
    = (Z.to_nat (n_epoch cfg) * ((n cfg + batch_size cfg - 1) / batch_size cfg))%nat.
Proof.
  intros Hlen Hn Hbs.
  destruct (notebook_run optimizer_step shuffle cfg net0 g Hn Hbs) as [run [E1 E2]].
  exists run; split; [exact E1|].
  rewrite E2.
  match goal with
  | |- context [train_epochs _ ?e ?kk ?ld ?nt _ ?gg] =>
      destruct (train_epochs_trace optimizer_step kk
                  ((n cfg + batch_size cfg - 1) / batch_size cfg) ld)
        with (epochs := e) (net := nt) (rl := @nil (option R)) (g := gg)
        as [ls [E L]]
  end.
  - intros g'; unfold bind, ret.
    pose proof (Hlen (combine (x (fst (generate (n cfg) (k cfg) g)))
                              (y (fst (generate (n cfg) (k cfg) g)))) g') as Hl.
    destruct (shuffle _ g') as [l g'']; cbn [fst] in *.
    rewrite chunks_count by (exact Hbs || lia).
    rewrite Hl, dataset_length; reflexivity.
  - rewrite E; simpl; exact L.
Qed.

End Minibatches.

Section MinibatchWitnesses.
Import Torch Rng RngFacts DataGenerator GeneratorFacts Training TrainingFacts.

Lemma training_trace_length_witness :
  exists run,
    fst (notebook (fun net _ _ => net) (fun l => ret l)
           {| n := 100; k := 20; batch_size := 32; n_epoch := 200 |}
           {| Net.fc1 := {| Net.weight := repeat [0] 64; Net.bias := repeat 0 64 |};
              Net.fc2 := {| Net.weight := repeat (repeat 0 64) 2;
                            Net.bias := [0; 0] |} |}
           {| bits := fun i => Z.of_nat i; gauss := fun i => INR i |})
    = Some run /\
    length (running_loss run) = 800%nat.
Proof.
  apply (training_trace_length (fun net _ _ => net) (fun l => ret l)
           {| n := 100; k := 20; batch_size := 32; n_epoch := 200 |}).
  - intros l g'; reflexivity.
  - cbn [n]; lia.
  - cbn [batch_size]; lia.
Defined.

End MinibatchWitnesses.

(** ** Batched evaluation of the model *)

Section BatchedForward.
Import Torch TorchFacts Net NetFacts.

(** X18: the forward pass treats the sites of a batch independently: on
    the concatenation of two batches it returns the concatenation of what
    it returns on each, and on the empty batch two empty columns. *)
Theorem forward_concatenates (net : Net) (x1 x2 : list R) :
  init_shape net ->
  forward net [] = Some ([], []) /\
  exists psi1 p1 psi2 p2,
    forward net x1 = Some (psi1, p1) /\
    forward net x2 = Some (psi2, p2) /\
    forward net (x1 ++ x2) = Some (psi1 ++ psi2, p1 ++ p2).
Proof.
  intros Hshape.
  split; [reflexivity|].
  destruct (forward_value net x1 Hshape) as [H1 _].
  destruct (forward_value net x2 Hshape) as [H2 _].
  destruct (forward_value net (x1 ++ x2) Hshape) as [H12 _].
  do 4 eexists.
  split; [exact H1|]; split; [exact H2|].
  rewrite H12; unfold output, hidden.
  rewrite !map_app; reflexivity.
Qed.

Lemma forward_concatenates_witness :
  forward {| fc1 := {| weight := repeat [0] 64; bias := repeat 0 64 |};
             fc2 := {| weight := repeat (repeat 0 64) 2; bias := [0; 0] |} |} []
  = Some ([], []).
Proof.
  apply (forward_concatenates
           {| fc1 := {| weight := repeat [0] 64; bias := repeat 0 64 |};
              fc2 := {| weight := repeat (repeat 0 64) 2; bias := [0; 0] |} |}
           [0] [1]).
  split; (split; [reflexivity|split; [reflexivity|]]);
    apply Forall_forall; intros row Hrow;
    apply repeat_spec in Hrow; subst; reflexivity.
Defined.

End BatchedForward.

Section FurtherWitnesses.
Import Torch TorchFacts BinomialDist BinomialFacts Rng DataGenerator.

Lemma logits_round_trip_witness :
  exists l, probs_to_logits (/ 2) = Some l /\ sigmoid l = / 2.
Proof.
  destruct (logits_round_trip (/ 2)) as [l [H1 [_ [H2 _]]]].
  exists l; split; [exact H1|].
  apply H2; pose proof eps_bounds; lra.
Defined.

Lemma detections_below_occupancy_witness :
  Forall (fun f => 0 <= f <= 1)
         (Reporting.detection_frequency 2
            (y (fst (generate 3 2
                       {| bits := fun i => Z.of_nat i; gauss := fun i => INR i |})))).
Proof.
  apply (detections_below_occupancy 3 2
           {| bits := fun i => Z.of_nat i; gauss := fun i => INR i |}); lia.
Defined.

End FurtherWitnesses.
